(** * note-rag: the retrieval core, embedded in Rocq

    This development embeds the fusion kernel ([fusion.py]), the reranker
    client ([reranker.py]), the searcher ([searcher.py]) and the per-file
    pipeline of the indexer ([indexer.py]) and proves the properties of the
    written specification against them.

    Conventions of the embedding.
    - Python floats are exact rationals ([Q]); equalities between scores are
      stated with [==].
    - A result document is a Python dict with string keys: [gmap string value].
      Dicts whose iteration order the code relies on ([scores], [docs],
      [top_ranks]) are association lists in insertion order.
    - Document ids are strings, as the annotations [Dict[str, float]] and
      [Dict[str, Dict]] of the source say; a value of another type under the
      id key is read as no id. Values under the score keys are numbers.
    - Text is a [string] of 8-bit characters; [len] counts characters.
    - Library calls and services that are not code of the repository (md5,
      the regular expressions, pathlib, the frontmatter parser, LanceDB's
      nearest-neighbour search, the Ollama endpoints) are fields of
      [Backends]; every definition takes them as a parameter.
    - Code that can raise returns [result]; code that also touches the
      stores, the caches or the backends runs in the state monad [M]. *)

From Stdlib Require Import ZArith QArith Lia Lqa String Ascii List Permutation Sorted.
From stdpp Require Import gmap strings list pretty.

Local Open Scope string_scope.
Local Open Scope list_scope.

(** ** Python values and exceptions *)

Inductive value : Type :=
| VNone
| VStr (s : string)
| VInt (z : Z)
| VFloat (q : Q)
| VList (l : list string).

Abbreviation Dict := (gmap string value).

Inductive exn : Type :=
| ZeroDivisionError
| KeyError
| TypeError
| ValueError
| HTTPError
| StoreError.

Inductive result (A : Type) : Type :=
| Ok (a : A)
| Raise (e : exn).
Arguments Ok {A} a.
Arguments Raise {A} e.


(** Sequencing: the first exception raised is the outcome. *)
#[global] Instance result_bind : MBind result := fun A B f m =>
  match m with
  | Ok a => f a
  | Raise e => Raise e
  end.

(** A number read from a dict: ints and floats take part in float
    arithmetic, anything else raises [TypeError]. *)
Definition as_float (v : value) : result Q :=
  match v with
  | VInt z => Ok (inject_Z z)
  | VFloat q => Ok q
  | _ => Raise TypeError
  end.

(** The key under which a doc id is stored in [rerank_scores]: a string, or
    [None] for Python's [None]. *)
Definition dict_key (v : value) : option string :=
  match v with
  | VStr s => Some s
  | _ => None
  end.

(** [a / b] on floats. *)
Definition py_div (a b : Q) : result Q :=
  if Qeq_bool b 0 then Raise ZeroDivisionError else Ok (a / b)%Q.

(** [l[:n]] for an int [n]: a negative [n] counts from the end. *)
Definition slice_to {A} (n : Z) (l : list A) : list A :=
  if (n <? 0)%Z then take (Z.to_nat (Z.of_nat (length l) + n)) l
  else take (Z.to_nat n) l.

(** ** Insertion-ordered dicts *)

Abbreviation odict V := (list (string * V)).

Fixpoint od_get {V} (k : string) (d : odict V) : option V :=
  match d with
  | [] => None
  | (k', v) :: d' => if decide (k' = k) then Some v else od_get k d'
  end.

(** [d[k] = v]: an existing key keeps its place, a new key goes last. *)
Fixpoint od_set {V} (k : string) (v : V) (d : odict V) : odict V :=
  match d with
  | [] => [(k, v)]
  | (k', v') :: d' =>
      if decide (k' = k) then (k, v) :: d' else (k', v') :: od_set k v d'
  end.

(** [d[k]]: raises [KeyError] on a missing key. *)
Definition od_index {V} (k : string) (d : odict V) : result V :=
  match od_get k d with
  | Some v => Ok v
  | None => Raise KeyError
  end.

Definition od_keys {V} (d : odict V) : list string := d.*1.

(** ** [sorted(l, key=..., reverse=True)]

    Python's sort is stable, also with [reverse=True]: elements with equal
    keys keep their input order. *)

Fixpoint insert_desc {A} (key : A -> Q) (x : A) (l : list A) : list A :=
  match l with
  | [] => [x]
  | y :: l' =>
      if Qlt_le_dec (key x) (key y) then y :: insert_desc key x l'
      else x :: y :: l'
  end.

Definition sorted_desc {A} (key : A -> Q) (l : list A) : list A :=
  foldr (insert_desc key) [] l.

(** Descending by key, and [a] before [b] in a list. *)
Definition desc_by {A} (key : A -> Q) (a b : A) : Prop := (key b <= key a)%Q.

Definition before {A} (l : list A) (a b : A) : Prop :=
  exists i j, (i < j)%nat /\ l !! i = Some a /\ l !! j = Some b.

(** Descending by key, ties in the order of the list [l]. *)
Definition desc_then_order {A} (key : A -> Q) (l : list A) (a b : A) : Prop :=
  (key b < key a)%Q \/ (key a == key b /\ before l a b).

(** ** fusion.py *)

Module Fusion.

(** [doc.get(id_key)] as a document id: [None] and the empty string are
    falsy, so such a doc has no id. *)
Definition doc_id (id_key : string) (doc : Dict) : option string :=
  match doc !! id_key with
  | Some (VStr s) => if decide (s = "") then None else Some s
  | _ => None
  end.

Record rrf_acc : Type := RrfAcc {
  scores : odict Q;
  docs : odict Dict;
  top_ranks : odict nat
}.

(** The body of the inner loop of [reciprocal_rank_fusion]. *)
Definition rrf_visit (k : Z) (id_key : string) (acc : rrf_acc)
    (rank : nat) (doc : Dict) : result rrf_acc :=
  match doc_id id_key doc with
  | None => Ok acc
  | Some i =>
      let acc1 :=
        match od_get i (scores acc) with
        | None => RrfAcc (od_set i 0%Q (scores acc))
                         (od_set i doc (docs acc))
                         (od_set i rank (top_ranks acc))
        | Some _ => acc
        end in
      s ← od_index i (scores acc1);
      c ← py_div 1 (inject_Z (k + Z.of_nat rank + 1));
      let acc2 := RrfAcc (od_set i (s + c)%Q (scores acc1))
                         (docs acc1) (top_ranks acc1) in
      t ← od_index i (top_ranks acc2);
      Ok (if (rank <? t)%nat
          then RrfAcc (scores acc2) (docs acc2) (od_set i rank (top_ranks acc2))
          else acc2)
  end.

(** [for rank, doc in enumerate(results)], from rank [rank] on. *)
Fixpoint rrf_inner (k : Z) (id_key : string) (acc : rrf_acc)
    (rank : nat) (results : list Dict) : result rrf_acc :=
  match results with
  | [] => Ok acc
  | doc :: rest =>
      acc' ← rrf_visit k id_key acc rank doc;
      rrf_inner k id_key acc' (S rank) rest
  end.

(** [for list_idx, results in enumerate(result_lists)]. *)
Fixpoint rrf_outer (k : Z) (id_key : string) (acc : rrf_acc)
    (result_lists : list (list Dict)) : result rrf_acc :=
  match result_lists with
  | [] => Ok acc
  | results :: rest =>
      acc' ← rrf_inner k id_key acc 0 results;
      rrf_outer k id_key acc' rest
  end.

Definition bonus_first : Q := 5 # 100.
Definition bonus_top3 : Q := 2 # 100.

(** [for doc_id, best_rank in top_ranks.items()]. *)
Fixpoint rrf_bonus (sc : odict Q) (items : odict nat) : result (odict Q) :=
  match items with
  | [] => Ok sc
  | (i, best_rank) :: rest =>
      if (best_rank =? 0)%nat then
        s ← od_index i sc; rrf_bonus (od_set i (s + bonus_first)%Q sc) rest
      else if (best_rank <=? 2)%nat then
        s ← od_index i sc; rrf_bonus (od_set i (s + bonus_top3)%Q sc) rest
      else rrf_bonus sc rest
  end.

(** [for doc_id, score in sorted_docs], appending to [results]. *)
Fixpoint rrf_build (score_key : string) (dc : odict Dict)
    (sorted_docs : odict Q) (results : list Dict) : result (list Dict) :=
  match sorted_docs with
  | [] => Ok results
  | (i, score) :: rest =>
      d ← od_index i dc;
      let doc := <[ "rrf_rank" := VInt (Z.of_nat (length results)) ]>
                   (<[ score_key := VFloat score ]> d) in
      rrf_build score_key dc rest (results ++ [doc])
  end.

Definition reciprocal_rank_fusion (result_lists : list (list Dict)) (k : Z)
    (id_key score_key : string) (top_rank_bonus : bool) : result (list Dict) :=
  match result_lists with
  | [] => Ok []
  | _ =>
      acc ← rrf_outer k id_key (RrfAcc [] [] []) result_lists;
      sc ← (if top_rank_bonus then rrf_bonus (scores acc) (top_ranks acc)
             else Ok (scores acc));
      rrf_build score_key (docs acc) (sorted_desc snd sc) []
  end.


Definition blend_weight (i : nat) : Q :=
  if (i <? 3)%nat then 75 # 100
  else if (i <? 10)%nat then 60 # 100
  else 40 # 100.

(** The body of the loop of [position_aware_blend] at position [i]. *)
Definition blend_record (rerank_scores : gmap (option string) Q)
    (id_key : string) (i : nat) (doc : Dict) : result Dict :=
  let doc_id := doc !! id_key ≫= dict_key in
  let rrf_score := default (VInt 0) (doc !! "score") in
  let rerank_score :=
    match rerank_scores !! doc_id with
    | Some q => VFloat q
    | None => VInt 0
    end in
  let rrf_weight := blend_weight i in
  let rerank_weight := (1 - rrf_weight)%Q in
  rrf ← as_float rrf_score;
  rer ← as_float rerank_score;
  let blended_score := (rrf_weight * rrf + rerank_weight * rer)%Q in
  Ok (<[ "score" := VFloat blended_score ]>
        (<[ "rerank_score" := rerank_score ]>
           (<[ "rrf_score" := rrf_score ]> doc))).

(** [for i, doc in enumerate(rrf_results)], from position [i] on. *)
Fixpoint blend_loop (rerank_scores : gmap (option string) Q)
    (id_key : string) (i : nat) (rrf_results : list Dict) : result (list Dict) :=
  match rrf_results with
  | [] => Ok []
  | doc :: rest =>
      r ← blend_record rerank_scores id_key i doc;
      rs ← blend_loop rerank_scores id_key (S i) rest;
      Ok (r :: rs)
  end.

(** [x["score"]] as a sort key; every record sorted here had a float
    stored under ["score"] by the loop above. *)
Definition score_of (d : Dict) : Q :=
  match d !! "score" with
  | Some (VFloat q) => q
  | Some (VInt z) => inject_Z z
  | _ => 0
  end.

Definition position_aware_blend (rrf_results : list Dict)
    (rerank_scores : gmap (option string) Q) (id_key : string)
    : result (list Dict) :=
  results ← blend_loop rerank_scores id_key 0 rrf_results;
  Ok (sorted_desc score_of results).

Definition Qmin_list (x : Q) (l : list Q) : Q :=
  fold_left (fun m y => if Qlt_le_dec y m then y else m) l x.
Definition Qmax_list (x : Q) (l : list Q) : Q :=
  fold_left (fun m y => if Qlt_le_dec m y then y else m) l x.

Fixpoint mapM {A B} (f : A -> result B) (l : list A) : result (list B) :=
  match l with
  | [] => Ok []
  | x :: l' => y ← f x; ys ← mapM f l'; Ok (y :: ys)
  end.

(** [normalize_scores]: the dicts are rewritten in place in the source; the
    callers pass lists they own, so the returned list is all that is seen. *)
Definition normalize_scores (results : list Dict) (score_key : string)
    : result (list Dict) :=
  match results with
  | [] => Ok results
  | _ =>
      scs ← mapM (fun r => as_float (default (VInt 0) (r !! score_key))) results;
      match scs with
      | [] => Raise ValueError
      | s0 :: rest =>
          let min_score := Qmin_list s0 rest in
          let max_score := Qmax_list s0 rest in
          if Qeq_bool max_score min_score then
            Ok (map (fun r => <[ score_key := VFloat 1 ]> r) results)
          else
            Ok (zip_with (fun r old_score =>
                   <[ score_key :=
                        VFloat ((old_score - min_score) / (max_score - min_score)) ]> r)
                  results scs)
      end
  end.

(** A value that float arithmetic accepts. *)
Definition numeric (v : value) : Prop :=
  match v with
  | VInt _ | VFloat _ => True
  | _ => False
  end.

(** The blend in the words of the specification: 0.75/0.25 at positions
    0 to 2, 0.60/0.40 at positions 3 to 9, 0.40/0.60 from position 10 on. *)
Definition blend_formula (i : nat) (rrf rerank : Q) : Q :=
  if (i <? 3)%nat then ((75 # 100) * rrf + (25 # 100) * rerank)%Q
  else if (i <? 10)%nat then ((60 # 100) * rrf + (40 # 100) * rerank)%Q
  else ((40 # 100) * rrf + (60 # 100) * rerank)%Q.

(** The rerank score of a doc, 0 when the map has none. *)
Definition rerank_of (rerank_scores : gmap (option string) Q) (id_key : string)
    (doc : Dict) : Q :=
  default 0%Q (rerank_scores !! (doc !! id_key ≫= dict_key)).

(** *** The fusion kernel in the words of the specification *)

(** All [(rank, doc)] pairs of the input lists, in iteration order. *)
Definition events (result_lists : list (list Dict)) : list (nat * Dict) :=
  flat_map (imap pair) result_lists.

Definition bears (id_key i : string) (e : nat * Dict) : Prop :=
  doc_id id_key e.2 = Some i.

#[global] Instance bears_dec id_key i e : Decision (bears id_key i e).
Proof. unfold bears. apply _. Defined.

(** The ranks at which a doc with id [i] appears. *)
Definition appearances (id_key i : string) (result_lists : list (list Dict))
    : list nat :=
  (filter (bears id_key i) (events result_lists)).*1.

(** The sum over the appearances at rank [r] of [1/(k + r + 1)]. *)
Definition rrf_sum (k : Z) (ranks : list nat) : Q :=
  foldr (fun r acc => 1 / inject_Z (k + Z.of_nat r + 1) + acc)%Q 0%Q ranks.

(** [b] is the best (smallest) of the ranks. *)
Definition is_best_rank (b : nat) (ranks : list nat) : Prop :=
  b ∈ ranks ∧ Forall (fun r => (b <= r)%nat) ranks.

Definition rank_bonus (top_rank_bonus : bool) (best : nat) : Q :=
  if top_rank_bonus then
    if (best =? 0)%nat then bonus_first
    else if (best <=? 2)%nat then bonus_top3
    else 0
  else 0.

(** The ids of a list in order of first appearance. *)
Fixpoint new_ids (seen : list string) (l : list string) : list string :=
  match l with
  | [] => []
  | i :: l' =>
      if decide (i ∈ seen) then new_ids seen l'
      else i :: new_ids (seen ++ [i]) l'
  end.

Definition first_seen (id_key : string) (result_lists : list (list Dict))
    : list string :=
  new_ids [] (omap (fun e : nat * Dict => doc_id id_key e.2) (events result_lists)).


(** *** The accumulation, one id at a time *)

(** What the three dicts hold for the id [i]. *)
Definition view (i : string) (acc : rrf_acc) : option (Q * Dict * nat) :=
  s ← od_get i (scores acc);
  d ← od_get i (docs acc);
  t ← od_get i (top_ranks acc);
  Some (s, d, t).

(** The three dicts have the same keys in the same order. *)
Definition synced (acc : rrf_acc) : Prop :=
  od_keys (scores acc) = od_keys (docs acc)
  /\ od_keys (scores acc) = od_keys (top_ranks acc).

(** The effect of one visit on the entry of the visited id. *)
Definition visit_view (k : Z) (rank : nat) (doc : Dict)
    (v : option (Q * Dict * nat)) : Q * Dict * nat :=
  match v with
  | None => ((0 + 1 / inject_Z (k + Z.of_nat rank + 1))%Q, doc, rank)
  | Some (s, d, t) =>
      ((s + 1 / inject_Z (k + Z.of_nat rank + 1))%Q, d,
       if (rank <? t)%nat then rank else t)
  end.

Definition view_step (k : Z) (v : option (Q * Dict * nat)) (e : nat * Dict)
    : option (Q * Dict * nat) :=
  Some (visit_view k e.1 e.2 v).

(** The two nested loops as one loop over [events]. *)
Fixpoint run_events (k : Z) (id_key : string) (acc : rrf_acc)
    (evs : list (nat * Dict)) : result rrf_acc :=
  match evs with
  | [] => Ok acc
  | e :: rest =>
      acc' ← rrf_visit k id_key acc e.1 e.2;
      run_events k id_key acc' rest
  end.

(** The bonus that the second loop adds to a score with best rank [t]. *)
Definition with_bonus (s : Q) (t : nat) : Q :=
  if (t =? 0)%nat then (s + bonus_first)%Q
  else if (t <=? 2)%nat then (s + bonus_top3)%Q
  else s.

(** The record built for position [n] of the fused list. *)
Definition decorate (score_key : string) (n : nat) (score : Q) (d : Dict) : Dict :=
  <[ "rrf_rank" := VInt (Z.of_nat n) ]> (<[ score_key := VFloat score ]> d).

(** The order of the fused list: by score descending, ties in the order in
    which the ids were first observed. *)
Definition fused_order (result_lists : list (list Dict)) (a b : Dict) : Prop :=
  (score_of b < score_of a)%Q
  \/ (score_of a == score_of b
      /\ exists ia ib, doc_id "file_path" a = Some ia
                       /\ doc_id "file_path" b = Some ib
                       /\ before (first_seen "file_path" result_lists) ia ib).

(** A doc that has only its id, and the lists of the fusion scenario of the
    specification. *)
Definition doc_of (i : string) : Dict := {[ "file_path" := VStr i ]}.

Definition scenario_lists : list (list Dict) :=
  [ [doc_of "d1"; doc_of "d2"; doc_of "d3"];
    [doc_of "d3"; doc_of "d4"; doc_of "d1"] ].

(** A single ranked list in which the last id occurs twice. *)
Definition repeated_list : list Dict :=
  [doc_of "a"; doc_of "b"; doc_of "c"; doc_of "d"; doc_of "e"; doc_of "e"].

End Fusion.

(** ** Text *)

Module Text.

Definition nl : string := String (ascii_of_nat 10) EmptyString.
Definition dq : string := String (ascii_of_nat 34) EmptyString.

(** [str.isspace] on the ASCII range. *)
Definition is_space (c : ascii) : bool :=
  let n := nat_of_ascii c in
  ((9 <=? n)%nat && (n <=? 13)%nat) || ((28 <=? n)%nat && (n <=? 32)%nat).

Fixpoint lstrip (s : string) : string :=
  match s with
  | EmptyString => EmptyString
  | String c s' => if is_space c then lstrip s' else s
  end.

Definition reverse (s : string) : string :=
  string_of_list_ascii (rev (list_ascii_of_string s)).

Definition rstrip (s : string) : string := reverse (lstrip (reverse s)).

(** [s.strip()] *)
Definition strip (s : string) : string := rstrip (lstrip s).

(** [s[:n]] and [s[n:]] for [0 <= n]. *)
Definition str_take (n : nat) (s : string) : string := substring 0 n s.
Fixpoint str_drop (n : nat) (s : string) : string :=
  match n, s with
  | O, _ => s
  | S n', String _ s' => str_drop n' s'
  | S _, EmptyString => EmptyString
  end.

(** [s.split(sep)] for a one-character separator. *)
Fixpoint split_on (sep : ascii) (s : string) : list string :=
  match s with
  | EmptyString => [EmptyString]
  | String c s' =>
      if Ascii.eqb c sep then EmptyString :: split_on sep s'
      else match split_on sep s' with
           | h :: t => String c h :: t
           | [] => [String c EmptyString]
           end
  end.

Definition upper_char (c : ascii) : ascii :=
  let n := nat_of_ascii c in
  if ((97 <=? n)%nat && (n <=? 122)%nat) then ascii_of_nat (n - 32) else c.

(** [s.upper()] on the ASCII range. *)
Fixpoint upper (s : string) : string :=
  match s with
  | EmptyString => EmptyString
  | String c s' => String (upper_char c) (upper s')
  end.

(** [p in s] *)
Definition contains (p s : string) : bool :=
  match index 0 p s with
  | Some _ => true
  | None => false
  end.

Definition startswith (s p : string) : bool := String.prefix p s.

End Text.

(** Truthiness of a value: [None], the empty string, zero and the empty
    list are falsy. *)
Definition truthy (v : value) : bool :=
  match v with
  | VNone => false
  | VStr s => negb (String.eqb s "")
  | VInt z => negb (z =? 0)%Z
  | VFloat q => negb (Qeq_bool q 0)
  | VList l => match l with [] => false | _ => true end
  end.

(** ** The world outside the repository *)

(** The schema of a row of the vector store ([DocumentChunk]). *)
Record DocumentChunk : Type := {
  id : string;
  vector : list Q;
  file_path : string;
  file_hash : string;
  title : string;
  category : string;
  people : list string;
  projects : list string;
  date : option string;
  vault : string;
  chunk_index : Z;
  content : string
}.

(** [options] of a request to [/api/generate]. *)
Record gen_options : Type := GenOptions {
  temperature : Q;
  num_predict : Z
}.

Record Backends : Type := {
  (** [hashlib.md5(text.encode()).hexdigest()] *)
  md5_hex : string -> string;
  (** The answer to the [n]-th POST to [/api/embed] with this input:
      [data["embeddings"][0]], or [None] when the request fails. *)
  ollama_embed : nat -> string -> option (list Q);
  (** The ["response"] field of the answer to a POST to [/api/generate]
      with this model, these options and this prompt, or [None] when the
      request fails. *)
  ollama_generate : string -> gen_options -> string -> option string;
  (** [file_path.read_text(encoding='utf-8')], [None] when it raises. *)
  read_text : string -> option string;
  (** [frontmatter.loads(content)]: metadata and body, [None] when it raises. *)
  frontmatter_loads : string -> option (Dict * string);
  (** [re.split(r'\n\n+|(?=^###?\s)', content, flags=re.MULTILINE)] *)
  re_split_sections : string -> list string;
  (** [re.search(r'(\d{4}-\d{2}-\d{2})', name)], the matched group. *)
  re_search_date : string -> option string;
  (** [file_path.relative_to(root).parts], [None] for its [ValueError]. *)
  path_relative_parts : string -> string -> option (list string);
  (** [file_path.stem] and [file_path.name] *)
  path_stem : string -> string;
  path_name : string -> string;
  (** [str(v)] *)
  py_str : value -> string;
  (** [table.search(vector).where(filters).limit(limit).to_list()] on the
      rows of a table, with the optional [category] and [person] filters:
      the rows found, each with its [_distance]; [None] when it raises. *)
  lance_search : list DocumentChunk -> list Q -> option string ->
                 option string -> Z -> option (list Dict)
}.

Record Settings : Type := {
  chunk_size : Z;
  chunk_overlap : Z;
  vault_work_path : string;
  vault_personal_path : string;
  excluded_folders_list : list string
}.

(** Modelled from the spec: the FTS store ([fts_index.py] is not among the
    sources). It holds whole documents, exactly one row per [file_path];
    [upsert_document] replaces the row of its path. *)
Record FtsRow : Type := {
  fts_title : value;
  fts_content : string;
  fts_vault : string;
  fts_category : string;
  fts_people : value;
  fts_date : value
}.

Definition upsert_document (store : gmap string FtsRow) (path : string)
    (row : FtsRow) : result (gmap string FtsRow) :=
  Ok (<[ path := row ]> store).

(** The state that the indexer and the searcher work on. *)
Record State : Type := {
  (** [self.db]: the LanceDB tables by name *)
  st_db : gmap string (list DocumentChunk);
  (** [Indexer.embedding_cache] *)
  st_cache : gmap string (list Q);
  (** [Indexer._cancel_requested] *)
  st_cancel : bool;
  (** [self.fts_index] *)
  st_fts : option (gmap string FtsRow);
  (** the number of requests sent to [/api/embed] so far *)
  st_embed_calls : nat;
  (** the messages logged at level ERROR or WARNING, oldest first *)
  st_log : list string
}.

(** ** Computations that read and write the state and may raise *)

Definition M (A : Type) : Type := State -> result A * State.

#[global] Instance M_bind : MBind M := fun A B f m st =>
  match m st with
  | (Ok a, st') => f a st'
  | (Raise e, st') => (Raise e, st')
  end.
#[global] Instance M_ret : MRet M := fun A a st => (Ok a, st).

Definition get_state : M State := fun st => (Ok st, st).
Definition put_state (st' : State) : M unit := fun _ => (Ok tt, st').
Definition raise {A} (e : exn) : M A := fun st => (Raise e, st).
Definition lift {A} (r : result A) : M A := fun st => (r, st).

(** [try: m except Exception as e: h e] *)
Definition try_except {A} (m : M A) (h : exn -> M A) : M A := fun st =>
  match m st with
  | (Ok a, st') => (Ok a, st')
  | (Raise e, st') => h e st'
  end.

(** [logger.error(msg)], [logger.warning(msg)] *)
Definition log_message (msg : string) : M unit := fun st =>
  (Ok tt, {| st_db := st_db st; st_cache := st_cache st;
             st_cancel := st_cancel st; st_fts := st_fts st;
             st_embed_calls := st_embed_calls st;
             st_log := st_log st ++ [msg] |}).

(** The HTTP exchange of both [get_embedding] methods: POST the text to
    [/api/embed], [raise_for_status], take [data["embeddings"][0]]. *)
Definition post_embed (env : Backends) (text : string) : M (list Q) := fun st =>
  let st' := {| st_db := st_db st; st_cache := st_cache st;
                st_cancel := st_cancel st; st_fts := st_fts st;
                st_embed_calls := S (st_embed_calls st);
                st_log := st_log st |} in
  match ollama_embed env (st_embed_calls st) text with
  | Some embedding => (Ok embedding, st')
  | None => (Raise HTTPError, st')
  end.

(** ** reranker.py *)

Module Reranker.
Section Reranker.

Context (env : Backends).
(** [self.model] *)
Variable model : string.

Definition RERANK_PROMPT (query document : string) : string :=
  "You are a relevance judge. Given a query and a document, determine if the document is relevant."
  ++ Text.nl ++ Text.nl ++ "Query: " ++ query
  ++ Text.nl ++ Text.nl ++ "Document:" ++ Text.nl ++ document
  ++ Text.nl ++ Text.nl
  ++ "Is this document relevant to the query? Answer with only YES or NO.".

Definition QUERY_EXPANSION_PROMPT (query : string) : string :=
  "Generate 2 alternative search queries for: " ++ Text.dq ++ query ++ Text.dq
  ++ Text.nl ++ Text.nl ++ "Rules:"
  ++ Text.nl ++ "- Keep the same meaning/intent"
  ++ Text.nl ++ "- Use different words or phrasings  "
  ++ Text.nl ++ "- One should be more specific, one more general"
  ++ Text.nl ++ "- Keep each under 10 words"
  ++ Text.nl ++ Text.nl ++ "Output exactly 2 lines, one query per line:".

(** [_generate]: a failing request is logged and answered with the empty
    string. *)
Definition _generate (prompt : string) : M string :=
  match ollama_generate env model (GenOptions 0 10) prompt with
  | Some response => mret (Text.strip response)
  | None => _ ← log_message "Ollama generate error"; mret ""
  end.

Definition score_document (query : string) (document : value) : M Q :=
  doc_text ← lift (match document with
                   | VStr s => Ok (Text.str_take 2000 s)
                   | _ => Raise TypeError
                   end);
  let prompt := RERANK_PROMPT query doc_text in
  response ← _generate prompt;
  let response_upper := Text.strip (Text.upper response) in
  if Text.startswith response_upper "YES" then mret 1%Q
  else if Text.startswith response_upper "NO" then mret 0%Q
  else mret (1 # 2)%Q.

(** [doc.get(id_key, "")] as a key of the score map. *)
Definition rerank_key (id_key : string) (doc : Dict) : option string :=
  match doc !! id_key with
  | None => Some ""
  | Some v => dict_key v
  end.

(** [doc.get(content_key, "")], or, when that is falsy,
    [doc.get("snippet", doc.get("excerpt", ""))]. *)
Definition rerank_content (content_key : string) (doc : Dict) : value :=
  let content := default (VStr "") (doc !! content_key) in
  if truthy content then content
  else default (default (VStr "") (doc !! "excerpt")) (doc !! "snippet").

(** The task of one document in [rerank]. *)
Definition score_with_semaphore (query content_key id_key : string)
    (doc : Dict) : M (option string * Q) :=
  let doc_id := rerank_key id_key doc in
  let content := rerank_content content_key doc in
  score ← score_document query content;
  mret (doc_id, score).

(** [asyncio.gather] with [return_exceptions=True]: every task runs, an
    exception becomes the result of its task. *)
Fixpoint gather_results {A} (tasks : list (M A)) : M (list (result A)) :=
  match tasks with
  | [] => mret []
  | t :: ts =>
      r ← (fun st => let '(r, st') := t st in (Ok r, st'));
      rs ← gather_results ts;
      mret (r :: rs)
  end.

(** [for result in results], building [scores]. *)
Fixpoint collect_scores (results : list (result (option string * Q)))
    (scores : gmap (option string) Q) : M (gmap (option string) Q) :=
  match results with
  | [] => mret scores
  | Raise _ :: rest =>
      _ ← log_message "Rerank error"; collect_scores rest scores
  | Ok (doc_id, score) :: rest =>
      collect_scores rest (<[ doc_id := score ]> scores)
  end.

Definition rerank (query : string) (documents : list Dict)
    (content_key id_key : string) (top_k : Z) : M (gmap (option string) Q) :=
  let docs_to_rerank := slice_to top_k documents in
  let tasks := map (score_with_semaphore query content_key id_key) docs_to_rerank in
  results ← gather_results tasks;
  collect_scores results ∅.

Definition expansion_prefixes : list string :=
  ["1."; "2."; "1:"; "2:"; "1)"; "2)"; "-"; "•"].

Definition strip_prefixes (line : string) : string :=
  fold_left (fun line pre =>
               if Text.startswith line pre
               then Text.strip (Text.str_drop (String.length pre) line)
               else line)
            expansion_prefixes line.

Definition expand_query (query : string) : M (list string) :=
  match ollama_generate env model (GenOptions (7 # 10) 50)
          (QUERY_EXPANSION_PROMPT query) with
  | Some response =>
      let result := Text.strip response in
      let lines :=
        map Text.strip
          (List.filter (fun line => negb (String.eqb (Text.strip line) ""))
             (Text.split_on (ascii_of_nat 10) result)) in
      let alternatives :=
        List.filter (fun line => negb (String.eqb line "") && negb (String.eqb line query))
          (map strip_prefixes (take 2 lines)) in
      mret (query :: alternatives)
  | None => _ ← log_message "Query expansion error"; mret [query]
  end.

End Reranker.



End Reranker.

(** [self.db.open_table(table_name)]: raises when there is no such table. *)
Definition open_table (table_name : string) : M (list DocumentChunk) := fun st =>
  match st_db st !! table_name with
  | Some rows => (Ok rows, st)
  | None => (Raise StoreError, st)
  end.

(** [for x in l: acc = f acc x] in [M]. *)
Fixpoint foldM {A B} (f : B -> A -> M B) (l : list A) (acc : B) : M B :=
  match l with
  | [] => mret acc
  | x :: l' => acc' ← f acc x; foldM f l' acc'
  end.

(** ** searcher.py *)

Module Searcher.
Section Searcher.

Context (env : Backends).
(** [FTSIndex.search(query, vault, limit, person)] on the rows of the FTS
    store; [fts_index.py] is not among the sources and no property below
    depends on its ranking, so it is a parameter. *)
Variable fts_search :
  gmap string FtsRow -> string -> string -> Z -> option string -> result (list Dict).

(** The model that [Searcher.__init__] gives its reranker. *)
Definition reranker_model : string := "qwen2.5:0.5b".

Definition get_embedding (text : string) : M (list Q) := post_embed env text.

(** [if category:] and [if person:]: an empty string adds no filter. *)
Definition filter_arg (o : option string) : option string :=
  match o with
  | Some s => if String.eqb s "" then None else Some s
  | None => None
  end.

(** The dict that [vector_search] builds from one row found. *)
Definition vector_hit (table_name : string) (r : Dict) : result Dict :=
  let content := default (VStr "") (r !! "content") in
  excerpt ← match content with
            | VStr s =>
                Ok (VStr (if (300 <? String.length s)%nat
                          then Text.str_take 300 s ++ "..." else s))
            | _ => Raise TypeError
            end;
  distance ← as_float (default (VInt 0) (r !! "_distance"));
  score ← py_div 1 (1 + distance);
  Ok (<[ "source" := VStr "vector" ]>
     (<[ "vault" := VStr table_name ]>
     (<[ "category" := default (VStr "") (r !! "category") ]>
     (<[ "people" := default (VList []) (r !! "people") ]>
     (<[ "date" := default VNone (r !! "date") ]>
     (<[ "excerpt" := excerpt ]>
     (<[ "content" := content ]>
     (<[ "title" := default (VStr "") (r !! "title") ]>
     (<[ "file_path" := default (VStr "") (r !! "file_path") ]>
     (<[ "score" := VFloat score ]> (∅ : Dict))))))))))).

(** [for r in search_results: ... results.append(...)]: the hits appended
    before a row raises stay in [results]. *)
Fixpoint append_hits (table_name : string) (rows : list Dict)
    (results : list Dict) : list Dict * option exn :=
  match rows with
  | [] => (results, None)
  | r :: rest =>
      match vector_hit table_name r with
      | Ok h => append_hits table_name rest (results ++ [h])
      | Raise e => (results, Some e)
      end
  end.

(** The body of [for table_name in tables_to_search], with its [try]. *)
Definition search_table (query_embedding : list Q) (category person : option string)
    (limit : Z) (results : list Dict) (table_name : string) : M (list Dict) :=
  st ← get_state;
  match st_db st !! table_name with
  | None => _ ← log_message "Error searching"; mret results
  | Some rows =>
      match lance_search env rows query_embedding
              (filter_arg category) (filter_arg person) limit with
      | None => _ ← log_message "Error searching"; mret results
      | Some search_results =>
          match append_hits table_name search_results results with
          | (results', None) => mret results'
          | (results', Some _) => _ ← log_message "Error searching"; mret results'
          end
      end
  end.

Definition tables_to_search (vault : string) : list string :=
  (if bool_decide (vault ∈ ["all"; "work"]) then ["work"] else [])
  ++ (if bool_decide (vault ∈ ["all"; "personal"]) then ["personal"] else []).

(** [vector_search]: the call of [get_embedding] stands before the loop and
    outside its [try]. *)
Definition vector_search (query vault : string) (category person : option string)
    (limit : Z) : M (list Dict) :=
  query_embedding ← get_embedding query;
  results ← foldM (search_table query_embedding category person limit)
              (tables_to_search vault) [];
  mret (slice_to limit (sorted_desc Fusion.score_of results)).

Definition bm25_search (query vault : string) (person : option string)
    (limit : Z) : M (list Dict) :=
  st ← get_state;
  match st_fts st with
  | None => mret []
  | Some store => lift (fts_search store query vault limit person)
  end.

(** [hybrid_search]: [asyncio.gather] without [return_exceptions] raises
    what either task raises. The two tasks are run one after the other
    here; they share no state but the log and the request counter. *)
Definition hybrid_search (query vault : string) (category person : option string)
    (limit : Z) : M (list Dict) :=
  bm25_results ← bm25_search query vault person 30;
  vector_results ← vector_search query vault category person 30;
  fused ← lift (Fusion.reciprocal_rank_fusion [bm25_results; vector_results]
                  60 "file_path" "score" true);
  fused ← lift (Fusion.normalize_scores fused "score");
  mret (slice_to limit fused).

(** [if len(all_results) > 1: all_results.insert(0, all_results[0])] *)
Definition weight_original (all_results : list (list Dict)) : list (list Dict) :=
  if (1 <? length all_results)%nat then
    match all_results with
    | first :: _ => first :: all_results
    | [] => all_results
    end
  else all_results.

(** [for q in queries: all_results.append(await hybrid_search(...))] *)
Definition search_all (queries : list string) (vault : string)
    (category person : option string) : M (list (list Dict)) :=
  foldM (fun all_results q =>
           results ← hybrid_search q vault category person 30;
           mret (all_results ++ [results]))
        queries [].

(** Steps 4 and the return of [query_search]: the optional reranking of the
    fused list, and the cut to [limit]. *)
Definition rerank_and_trim (query : string) (limit : Z) (use_reranking : bool)
    (fused : list Dict) : M (list Dict) :=
  if use_reranking && (0 <? length fused)%nat then
    rerank_scores ← Reranker.rerank env reranker_model query
                      (slice_to 30 fused) "content" "file_path" 30;
    fused ← lift (Fusion.position_aware_blend fused rerank_scores "file_path");
    mret (slice_to limit fused)
  else mret (slice_to limit fused).

(** Step 1 of [query_search]. *)
Definition expand (query : string) (use_query_expansion : bool) : M (list string) :=
  if use_query_expansion then Reranker.expand_query env reranker_model query
  else mret [query].

Definition query_search (query vault : string) (category person : option string)
    (limit : Z) (use_reranking use_query_expansion : bool) : M (list Dict) :=
  queries ← expand query use_query_expansion;
  all_results ← search_all queries vault category person;
  let all_results := weight_original all_results in
  fused ← lift (Fusion.reciprocal_rank_fusion all_results 60 "file_path" "score" true);
  rerank_and_trim query limit use_reranking fused.

End Searcher.
End Searcher.

(** ** indexer.py *)

Module Indexer.
Section Indexer.

Context (env : Backends) (settings : Settings).

(** The dimension of [Vector(768)] in the schema. *)
Definition embedding_dimension : nat := 768.

(** [Indexer.get_embedding]: the cache is looked up under the md5 of the
    text; a vector is stored only after the request succeeded. *)
Definition get_embedding (text : string) : M (list Q) :=
  let cache_key := md5_hex env text in
  st ← get_state;
  match st_cache st !! cache_key with
  | Some embedding => mret embedding
  | None =>
      embedding ← post_embed env text;
      st ← get_state;
      _ ← put_state {| st_db := st_db st;
                       st_cache := <[ cache_key := embedding ]> (st_cache st);
                       st_cancel := st_cancel st; st_fts := st_fts st;
                       st_embed_calls := st_embed_calls st;
                       st_log := st_log st |};
      mret embedding
  end.

(** What [_extract_metadata_sync] returns, without the body. *)
Record Metadata : Type := {
  m_file_path : string;
  m_file_hash : string;
  m_title : value;
  m_category : string;
  m_people : value;
  m_projects : value;
  m_date : value;
  m_vault : string
}.

(** A chunk of [_chunk_document_sync]: its index, its text, the metadata. *)
Record Chunk : Type := {
  c_index : nat;
  c_content : string;
  c_meta : Metadata
}.

(** The state of the loop of [_chunk_document_sync]. *)
Record chunker : Type := Chunker {
  chunks : list Chunk;
  current_chunk : string;
  next_index : nat
}.

Definition chunk_step (metadata : Metadata) (c : chunker) (section : string)
    : chunker :=
  let section := Text.strip section in
  if String.eqb section "" then c
  else if (chunk_size settings * 4 <?
           Z.of_nat (String.length (current_chunk c))
           + Z.of_nat (String.length section))%Z then
    if negb (String.eqb (current_chunk c) "") then
      let overlap_start :=
        Z.max 0 (Z.of_nat (String.length (current_chunk c))
                 - chunk_overlap settings * 4) in
      Chunker (chunks c ++ [ {| c_index := next_index c;
                                c_content := Text.strip (current_chunk c);
                                c_meta := metadata |} ])
              (Text.str_drop (Z.to_nat overlap_start) (current_chunk c)
               ++ Text.nl ++ Text.nl ++ section)
              (S (next_index c))
    else Chunker (chunks c) section (next_index c)
  else
    Chunker (chunks c)
            (if negb (String.eqb (current_chunk c) "")
             then current_chunk c ++ Text.nl ++ Text.nl ++ section
             else section)
            (next_index c).

Definition chunk_document (content : string) (metadata : Metadata) : list Chunk :=
  let sections := re_split_sections env content in
  let c := fold_left (chunk_step metadata) sections (Chunker [] "" 0) in
  if negb (String.eqb (Text.strip (current_chunk c)) "") then
    chunks c ++ [ {| c_index := next_index c;
                     c_content := Text.strip (current_chunk c);
                     c_meta := metadata |} ]
  else chunks c.

(** [people] and [projects]: a comma-separated string becomes the list of
    its trimmed parts. *)
Definition list_field (v : value) : value :=
  match v with
  | VStr s => VList (map Text.strip (Text.split_on "," s))
  | _ => v
  end.

Definition extract_metadata (file_path content : string)
    : result (Metadata * string) :=
  let '(fm, body) :=
    match frontmatter_loads env content with
    | Some (fm, body) => (fm, body)
    | None => (∅, content)
    end in
  let vault :=
    if Text.contains (vault_work_path settings) file_path then "work"
    else if Text.contains (vault_personal_path settings) file_path then "personal"
    else "unknown" in
  relative ← match path_relative_parts env file_path
                     (if String.eqb vault "work" then vault_work_path settings
                      else vault_personal_path settings) with
             | Some parts => Ok parts
             | None => Raise ValueError
             end;
  let category := match relative with p :: _ => p | [] => "other" end in
  let title := default (VStr (path_stem env file_path)) (fm !! "title") in
  let date := default VNone (fm !! "date") in
  let date :=
    if truthy date then VStr (py_str env date)
    else match re_search_date env (path_name env file_path) with
         | Some d => VStr d
         | None => date
         end in
  let people := list_field (default (VList []) (fm !! "people")) in
  let projects := list_field (default (VList []) (fm !! "projects")) in
  Ok ({| m_file_path := file_path;
         m_file_hash := md5_hex env content;
         m_title := title; m_category := category;
         m_people := people; m_projects := projects;
         m_date := date; m_vault := vault |}, body).

Definition is_excluded (file_path : string) : bool :=
  existsb (fun excluded => Text.contains excluded file_path)
          (excluded_folders_list settings).

(** [read_file]: an unreadable file is logged and read as [None]. *)
Definition read_file (file_path : string) : M (option string) :=
  match read_text env file_path with
  | Some content => mret (Some content)
  | None => _ ← log_message "Error reading"; mret None
  end.

(** [DocumentChunk(...)]: the model validates its fields against the
    schema; the vector has the dimension of the schema, [title] is a
    string, [people] and [projects] are lists, [date] a string or [None]. *)
Definition make_record (chunk : Chunk) (embedding : list Q) : result DocumentChunk :=
  let md := c_meta chunk in
  if negb (length embedding =? embedding_dimension)%nat then Raise ValueError
  else
    match m_title md, m_people md, m_projects md with
    | VStr title, VList people, VList projects =>
        date ← match m_date md with
               | VNone => Ok None
               | VStr d => Ok (Some d)
               | _ => Raise ValueError
               end;
        Ok {| id := m_file_hash md ++ "_" ++ pretty (c_index chunk);
              vector := embedding;
              file_path := m_file_path md;
              file_hash := m_file_hash md;
              title := title; category := m_category md;
              people := people; projects := projects;
              date := date; vault := m_vault md;
              chunk_index := Z.of_nat (c_index chunk);
              content := c_content chunk |}
    | _, _, _ => Raise ValueError
    end.

(** The [try] of the embedding loop for one chunk. *)
Definition embed_chunk (records : list DocumentChunk) (chunk : Chunk)
    : M (list DocumentChunk) :=
  try_except
    (embedding ← get_embedding (Text.str_take (Z.to_nat 8000) (c_content chunk));
     record ← lift (make_record chunk embedding);
     mret (records ++ [record]))
    (fun _ => _ ← log_message "Error embedding chunk"; mret records).

(** [for chunk in chunks]: [inl n] is the early [return len(records)] of a
    cancelled pass, [inr records] the end of the loop. *)
Fixpoint embed_loop (chunks : list Chunk) (records : list DocumentChunk)
    : M (nat + list DocumentChunk) :=
  match chunks with
  | [] => mret (inr records)
  | chunk :: rest =>
      st ← get_state;
      if st_cancel st then mret (inl (length records))
      else records' ← embed_chunk records chunk; embed_loop rest records'
  end.

Definition set_table (table_name : string) (rows : list DocumentChunk) : M unit :=
  fun st =>
    (Ok tt, {| st_db := <[ table_name := rows ]> (st_db st);
               st_cache := st_cache st; st_cancel := st_cancel st;
               st_fts := st_fts st; st_embed_calls := st_embed_calls st;
               st_log := st_log st |}).

(** [table.delete('file_hash = "..."')] *)
Definition table_delete (table_name hash : string) : M unit :=
  rows ← open_table table_name;
  set_table table_name
    (List.filter (fun r => negb (String.eqb (file_hash r) hash)) rows).

(** [table.add(records)] *)
Definition table_add (table_name : string) (records : list DocumentChunk) : M unit :=
  rows ← open_table table_name;
  set_table table_name (rows ++ records).

(** [if self.fts_index: try: self.fts_index.upsert_document(...)] *)
Definition fts_write (file_path table_name body : string) (metadata : Metadata)
    : M unit :=
  fun st =>
    match st_fts st with
    | None => (Ok tt, st)
    | Some store =>
        match upsert_document store file_path
                {| fts_title := m_title metadata; fts_content := body;
                   fts_vault := table_name; fts_category := m_category metadata;
                   fts_people := m_people metadata;
                   fts_date := m_date metadata |} with
        | Ok store' =>
            (Ok tt, {| st_db := st_db st; st_cache := st_cache st;
                       st_cancel := st_cancel st; st_fts := Some store';
                       st_embed_calls := st_embed_calls st;
                       st_log := st_log st |})
        | Raise _ => log_message "FTS indexing failed" st
        end
    end.

Definition index_file (file_path table_name : string) : M nat :=
  if is_excluded file_path then mret 0%nat
  else
    content ← read_file file_path;
    match content with
    | None => mret 0%nat
    | Some content =>
        if (String.length (Text.strip content) <? 50)%nat then mret 0%nat
        else
          '(metadata, body) ← lift (extract_metadata file_path content);
          let chunks := chunk_document body metadata in
          match chunks with
          | [] => mret 0%nat
          | _ =>
              _ ← open_table table_name;
              looped ← embed_loop chunks [];
              match looped with
              | inl n => mret n
              | inr records =>
                  match records with
                  | [] => mret (length records)
                  | _ =>
                      _ ← try_except (table_delete table_name (m_file_hash metadata))
                            (fun _ => mret tt);
                      _ ← table_add table_name records;
                      _ ← fts_write file_path table_name body metadata;
                      mret (length records)
                  end
              end
          end
    end.

End Indexer.
End Indexer.

(** ** Concrete worlds for the examples *)

Definition demo_settings : Settings :=
  {| chunk_size := 500; chunk_overlap := 50;
     vault_work_path := "/vault/work";
     vault_personal_path := "/vault/personal";
     excluded_folders_list := ["_archive"] |}.

Definition demo_path : string := "/vault/work/notes/a.md".

(** A world in which the file [demo_path] holds [content]. The examples
    use texts without frontmatter fence, blank line or header, for which
    [frontmatter.loads] returns empty metadata and the stripped text, and
    [re.split] returns the text whole. [embed] answers the embedding
    requests and [generate] the generation requests. The digest is a
    stand-in that tells the texts of the examples apart: the text itself. *)
Definition demo_env (content : string)
    (embed : nat -> string -> option (list Q))
    (generate : string -> gen_options -> string -> option string) : Backends :=
  {| md5_hex := fun text => text;
     ollama_embed := embed;
     ollama_generate := generate;
     read_text := fun path => if String.eqb path demo_path then Some content else None;
     frontmatter_loads := fun text => Some (∅, Text.strip text);
     re_split_sections := fun text => [text];
     re_search_date := fun _ => None;
     path_relative_parts := fun _ _ => Some ["notes"; "a.md"];
     path_stem := fun _ => "a";
     path_name := fun _ => "a.md";
     py_str := fun _ => "";
     lance_search := fun _ _ _ _ _ => Some [] |}.

(** The embedding backend answers the [n]-th request with a vector that
    depends on [n]; the backend is down. *)
Definition embed_up : nat -> string -> option (list Q) :=
  fun n _ => Some (replicate 768 (inject_Z (Z.of_nat n))).
Definition embed_down : nat -> string -> option (list Q) := fun _ _ => None.
Definition generate_down : string -> gen_options -> string -> option string :=
  fun _ _ _ => None.
(** A generation backend that answers every prompt with two lines. *)
Definition generate_two : string -> gen_options -> string -> option string :=
  fun _ _ _ => Some ("1. cluster migration" ++ Text.nl ++ "2. index move")%string.

(** An FTS search that finds nothing. *)
Definition fts_nothing : gmap string FtsRow -> string -> string -> Z ->
                         option string -> result (list Dict) :=
  fun _ _ _ _ _ => Ok [].

(** Two empty tables, an empty FTS store, nothing cached. *)
Definition fresh_state : State :=
  {| st_db := <[ "work" := [] ]> (<[ "personal" := [] ]> ∅);
     st_cache := ∅; st_cancel := false; st_fts := Some ∅;
     st_embed_calls := 0; st_log := [] |}.

(** Texts of 49 and of 50 characters, and an older text of the same file. *)
Definition text49 : string := "Migration plan: move the index to the new cluster".
Definition text50 : string := "Migration plan: move the index to the new cluster.".
Definition text_old : string := "Migration plan: keep the index on the old cluster for now.".

(** The row that indexing [demo_path] with the content [text_old] wrote. *)
Definition old_row : DocumentChunk :=
  {| id := text_old ++ "_0"; vector := replicate 768 0%Q;
     file_path := demo_path; file_hash := text_old; title := "a";
     category := "notes"; people := []; projects := []; date := None;
     vault := "work"; chunk_index := 0; content := text_old |}.

(** [fresh_state] after [demo_path] was indexed with [text_old]. *)
Definition indexed_state : State :=
  {| st_db := <[ "work" := [old_row] ]> (<[ "personal" := [] ]> ∅);
     st_cache := ∅; st_cancel := false; st_fts := Some ∅;
     st_embed_calls := 0; st_log := [] |}.

(** * Proofs *)

(** ** Insertion-ordered dicts *)

Section od_lemmas.
Context {V : Type}.
Implicit Types (d : odict V) (k : string) (v : V).

Lemma od_get_set_eq k v d : od_get k (od_set k v d) = Some v.
Proof.
  induction d as [|[k' v'] d IH]; simpl.
  - by rewrite decide_True.
  - destruct (decide (k' = k)); simpl.
    + by rewrite decide_True.
    + by rewrite decide_False.
Qed.

Lemma od_get_set_ne k k' v d : k ≠ k' → od_get k' (od_set k v d) = od_get k' d.
Proof.
  intros Hne. induction d as [|[k0 v0] d IH]; simpl.
  - by rewrite decide_False.
  - destruct (decide (k0 = k)) as [->|]; simpl.
    + by rewrite !decide_False.
    + destruct (decide (k0 = k')); auto.
Qed.

Lemma od_get_None k d : od_get k d = None ↔ k ∉ od_keys d.
Proof.
  unfold od_keys. induction d as [|[k' v'] d IH].
  - split; [intros _; apply not_elem_of_nil | done].
  - rewrite fmap_cons, not_elem_of_cons. cbn [od_get fst].
    destruct (decide (k' = k)) as [->|]; naive_solver.
Qed.

Lemma od_get_Some_keys k v d : od_get k d = Some v → k ∈ od_keys d.
Proof.
  intros H. destruct (decide (k ∈ od_keys d)) as [|Hn]; [done|].
  apply od_get_None in Hn. congruence.
Qed.

Lemma od_keys_set k v d :
  od_keys (od_set k v d) = od_keys d ++ (if decide (k ∈ od_keys d) then [] else [k]).
Proof.
  unfold od_keys. induction d as [|[k' v'] d IH].
  - rewrite decide_False by apply not_elem_of_nil. done.
  - cbn [od_set]. destruct (decide (k' = k)) as [->|Hne].
    + rewrite !fmap_cons. cbn [fst].
      rewrite decide_True by left. by rewrite app_nil_r.
    + rewrite !fmap_cons, IH. cbn [fst app]. f_equal. f_equal.
      destruct (decide (k ∈ d.*1)), (decide (k ∈ k' :: d.*1)) as [Hin|Hin];
        try done; exfalso.
      * apply Hin. by right.
      * apply elem_of_cons in Hin as [?|?]; congruence.
Qed.

Lemma od_index_Some k v d : od_get k d = Some v → od_index k d = Ok v.
Proof. unfold od_index. by intros ->. Qed.

End od_lemmas.

(** ** Stable descending sort *)

Lemma StronglySorted_mono {A} (R R' : A → A → Prop) (l : list A) :
  (∀ a b, R a b → R' a b) → StronglySorted R l → StronglySorted R' l.
Proof.
  intros HR. induction 1 as [|x l Hl IH Hx]; constructor; [done|].
  eapply Forall_impl; [exact Hx | auto].
Qed.

Section sorting.
Context {A : Type} (key : A → Q).
Implicit Types (l : list A) (x : A).

Lemma insert_desc_perm x l : insert_desc key x l ≡ₚ x :: l.
Proof.
  induction l as [|y l IH]; simpl; [done|].
  destruct (Qlt_le_dec (key x) (key y)); [|done].
  rewrite IH. apply perm_swap.
Qed.

Lemma sorted_desc_perm l : sorted_desc key l ≡ₚ l.
Proof.
  induction l as [|x l IH]; simpl; [done|].
  rewrite insert_desc_perm. by f_equiv.
Qed.

Lemma sorted_desc_length l : length (sorted_desc key l) = length l.
Proof. by rewrite sorted_desc_perm. Qed.

Lemma before_cons_head x l b : b ∈ l → before (x :: l) x b.
Proof.
  intros [j Hj]%list_elem_of_lookup. exists 0%nat, (S j). split_and!; [lia|done|done].
Qed.

Lemma before_cons x l a b : before l a b → before (x :: l) a b.
Proof.
  intros (i & j & Hij & Hi & Hj). exists (S i), (S j). split_and!; [lia|done|done].
Qed.

Lemma desc_then_order_le l a b : desc_then_order key l a b → (key b <= key a)%Q.
Proof. intros [?|[Heq _]]; [by apply Qlt_le_weak | rewrite Heq; apply Qle_refl]. Qed.

Lemma insert_desc_sorted (R : A → A → Prop) x l :
  (∀ y, y ∈ l → (key x < key y)%Q → R y x) →
  (∀ y, y ∈ l → (key y <= key x)%Q → R x y) →
  (∀ a b, R a b → (key b <= key a)%Q) →
  StronglySorted R l → StronglySorted R (insert_desc key x l).
Proof.
  intros Hgt Hle Hkey. induction 1 as [|y l Hl IH Hy]; simpl.
  - repeat constructor.
  - destruct (Qlt_le_dec (key x) (key y)) as [Hlt|Hge].
    + constructor.
      * apply IH; intros; [apply Hgt | apply Hle]; try done; by right.
      * rewrite insert_desc_perm. constructor; [apply Hgt; [left|done]|done].
    + constructor; [by constructor|].
      constructor; [apply Hle; [left|done]|].
      apply Forall_forall. intros z Hz. apply Hle; [by right|].
      rewrite Forall_forall in Hy. apply Qle_trans with (key y); [|done].
      apply Hkey, Hy, Hz.
Qed.

(** The sort is stable: its output is ordered by key descending, and
    elements with equal keys stay in their order of the input. *)
Lemma sorted_desc_stable l :
  StronglySorted (desc_then_order key l) (sorted_desc key l).
Proof.
  induction l as [|x l IH]; simpl; [constructor|].
  apply insert_desc_sorted.
  - intros y _ Hlt. by left.
  - intros y Hy Hle. rewrite sorted_desc_perm in Hy.
    destruct (Qlt_le_dec (key y) (key x)) as [?|Hge]; [by left|right].
    split; [by apply Qle_antisym | by apply before_cons_head].
  - apply desc_then_order_le.
  - eapply StronglySorted_mono; [|exact IH].
    intros a b [?|[? ?]]; [by left | right; split; [done | by apply before_cons]].
Qed.

Lemma sorted_desc_sorted l : StronglySorted (desc_by key) (sorted_desc key l).
Proof.
  eapply StronglySorted_mono; [|apply sorted_desc_stable].
  intros a b. apply desc_then_order_le.
Qed.

(** A list that is already in descending order is left as it is. *)
Lemma sorted_desc_id l : StronglySorted (desc_by key) l → sorted_desc key l = l.
Proof.
  induction 1 as [|x l Hl IH Hx]; simpl; [done|].
  rewrite IH. destruct l as [|y l]; simpl; [done|].
  destruct (Qlt_le_dec (key x) (key y)) as [Hlt|]; [|done].
  apply Forall_cons in Hx as [Hy _]. unfold desc_by in Hy.
  exfalso. by apply (Qlt_not_le _ _ Hlt).
Qed.

End sorting.

(** ** Reciprocal rank fusion *)

Import Fusion.

Lemma py_div_rank (k : Z) (rank : nat) :
  (0 ≤ k)%Z →
  py_div 1 (inject_Z (k + Z.of_nat rank + 1))
  = Ok (1 / inject_Z (k + Z.of_nat rank + 1))%Q.
Proof.
  intros Hk. unfold py_div.
  destruct (Qeq_bool _ _) eqn:E; [|done].
  apply Qeq_bool_iff in E. unfold Qeq in E. simpl in E. lia.
Qed.

Lemma synced_get (acc : rrf_acc) (i : string) :
  synced acc →
  (od_get i (scores acc) = None ∧ od_get i (docs acc) = None
   ∧ od_get i (top_ranks acc) = None)
  ∨ (∃ s d t, od_get i (scores acc) = Some s ∧ od_get i (docs acc) = Some d
       ∧ od_get i (top_ranks acc) = Some t).
Proof.
  intros [Hd Ht]. destruct (od_get i (scores acc)) as [s|] eqn:Hs.
  - right. apply od_get_Some_keys in Hs.
    destruct (od_get i (docs acc)) as [d|] eqn:Hdd;
      [|apply od_get_None in Hdd; rewrite <- Hd in Hdd; done].
    destruct (od_get i (top_ranks acc)) as [t|] eqn:Htt;
      [|apply od_get_None in Htt; rewrite <- Ht in Htt; done].
    eauto 10.
  - left. apply od_get_None in Hs. split_and!; [done| |]; apply od_get_None; congruence.
Qed.

Lemma view_ne (acc acc' : rrf_acc) (j : string) :
  od_get j (scores acc') = od_get j (scores acc) →
  od_get j (docs acc') = od_get j (docs acc) →
  od_get j (top_ranks acc') = od_get j (top_ranks acc) →
  view j acc' = view j acc.
Proof. unfold view. by intros -> -> ->. Qed.

Lemma rrf_visit_no_id k id_key acc rank doc :
  doc_id id_key doc = None → rrf_visit k id_key acc rank doc = Ok acc.
Proof. unfold rrf_visit. by intros ->. Qed.

Lemma rrf_visit_id k id_key acc rank doc i :
  doc_id id_key doc = Some i → synced acc → (0 ≤ k)%Z →
  ∃ acc', rrf_visit k id_key acc rank doc = Ok acc' ∧ synced acc'
    ∧ od_keys (scores acc')
      = od_keys (scores acc)
        ++ (if decide (i ∈ od_keys (scores acc)) then [] else [i])
    ∧ view i acc' = Some (visit_view k rank doc (view i acc))
    ∧ ∀ j, j ≠ i → view j acc' = view j acc.
Proof.
  intros Hid Hsync Hk. unfold rrf_visit. rewrite Hid.
  destruct (synced_get acc i Hsync) as [(Hs & Hd & Ht)|(s & d & t & Hs & Hd & Ht)].
  - rewrite Hs. simpl. unfold od_index at 1. rewrite od_get_set_eq. simpl.
    rewrite py_div_rank by done. simpl.
    unfold od_index. rewrite od_get_set_eq. simpl.
    rewrite Nat.ltb_irrefl.
    eexists. split; [done|]. destruct Hsync as [Hkd Hkt].
    assert (Hn : i ∉ od_keys (scores acc)) by by apply od_get_None.
    split_and!.
    + split; simpl; rewrite !od_keys_set, <- ?Hkd, <- ?Hkt;
        rewrite !decide_False by done; simpl;
        rewrite decide_True by (apply elem_of_app; right; left);
        by rewrite app_nil_r.
    + simpl. rewrite !od_keys_set. rewrite !decide_False by done.
      rewrite decide_True by (apply elem_of_app; right; left).
      by rewrite app_nil_r.
    + assert (view i acc = None) as -> by (unfold view; by rewrite Hs).
      unfold view. simpl. by rewrite !od_get_set_eq.
    + intros j Hj. apply view_ne; simpl; by rewrite !od_get_set_ne by done.
  - rewrite Hs. cbn beta iota zeta. unfold od_index. rewrite Hs. simpl.
    rewrite py_div_rank by done. simpl. rewrite Ht. simpl.
    eexists. split; [done|]. destruct Hsync as [Hkd Hkt].
    assert (Hin : i ∈ od_keys (scores acc)) by by eapply od_get_Some_keys.
    split_and!.
    + destruct (rank <? t)%nat; split; simpl; rewrite !od_keys_set, <- ?Hkd, <- ?Hkt;
        rewrite ?decide_True by done; by rewrite ?app_nil_r.
    + destruct (rank <? t)%nat; simpl; rewrite od_keys_set, decide_True by done;
        by rewrite app_nil_r.
    + assert (view i acc = Some (s, d, t)) as ->
        by (unfold view; by rewrite Hs, Hd, Ht).
      unfold view, visit_view.
      destruct (rank <? t)%nat; simpl; rewrite ?od_get_set_eq, ?Hd, ?Ht; simpl; done.
    + intros j Hj. apply view_ne; destruct (rank <? t)%nat; simpl;
        by rewrite ?od_get_set_ne by done.
Qed.

Lemma run_events_app k id_key acc evs1 evs2 :
  run_events k id_key acc (evs1 ++ evs2)
  = acc' ← run_events k id_key acc evs1; run_events k id_key acc' evs2.
Proof.
  revert acc. induction evs1 as [|e evs1 IH]; intros acc; simpl; [done|].
  destruct (rrf_visit k id_key acc e.1 e.2); simpl; [apply IH | done].
Qed.

Lemma rrf_inner_events k id_key acc r results :
  rrf_inner k id_key acc r results
  = run_events k id_key acc (imap (λ n d, ((r + n)%nat, d)) results).
Proof.
  revert acc r. induction results as [|doc rest IH]; intros acc r; [done|].
  rewrite imap_cons. simpl. rewrite Nat.add_0_r.
  destruct (rrf_visit k id_key acc r doc); simpl; [|done].
  rewrite IH. f_equal. apply imap_ext. intros n d _. simpl. f_equal. lia.
Qed.

Lemma rrf_outer_events k id_key acc result_lists :
  rrf_outer k id_key acc result_lists
  = run_events k id_key acc (events result_lists).
Proof.
  revert acc. induction result_lists as [|l ls IH]; intros acc; [done|].
  unfold events. simpl. rewrite run_events_app, rrf_inner_events.
  destruct (run_events _ _ _ _); simpl; [apply IH | done].
Qed.

Lemma run_events_spec k id_key evs acc :
  (0 ≤ k)%Z → synced acc →
  ∃ acc', run_events k id_key acc evs = Ok acc' ∧ synced acc'
    ∧ od_keys (scores acc')
      = od_keys (scores acc)
        ++ new_ids (od_keys (scores acc))
             (omap (λ e : nat * Dict, doc_id id_key e.2) evs)
    ∧ ∀ i, view i acc'
           = fold_left (view_step k) (filter (bears id_key i) evs) (view i acc).
Proof.
  intros Hk. revert acc. induction evs as [|[rank doc] evs IH]; intros acc Hsync.
  - exists acc. simpl. by rewrite app_nil_r.
  - simpl. destruct (doc_id id_key doc) as [i0|] eqn:Hid.
    + destruct (rrf_visit_id k id_key acc rank doc i0 Hid Hsync Hk)
        as (acc1 & -> & Hsync1 & Hkeys1 & Hview & Hother).
      simpl. destruct (IH acc1 Hsync1) as (acc' & -> & Hsync' & Hkeys' & Hviews).
      exists acc'. split_and!; [done|done| |].
      * rewrite Hkeys', Hkeys1.
        destruct (decide (i0 ∈ od_keys (scores acc))); simpl.
        -- by rewrite app_nil_r.
        -- by rewrite <- app_assoc.
      * intros i. rewrite Hviews. rewrite filter_cons.
        destruct (decide (bears id_key i (rank, doc))) as [Hb|Hb].
        -- unfold bears in Hb. simpl in Hb. rewrite Hid in Hb. injection Hb as ->.
           simpl. unfold view_step at 2. simpl. by rewrite Hview.
        -- rewrite Hother; [done|]. intros ->. by apply Hb.
    + rewrite rrf_visit_no_id by done. simpl.
      destruct (IH acc Hsync) as (acc' & -> & Hsync' & Hkeys' & Hviews).
      exists acc'. split_and!; [done|done|done|].
      intros i. rewrite Hviews, filter_cons.
      rewrite decide_False; [done|]. unfold bears. simpl. by rewrite Hid.
Qed.

Lemma rrf_sum_cons k r rs :
  rrf_sum k (r :: rs) = (1 / inject_Z (k + Z.of_nat r + 1) + rrf_sum k rs)%Q.
Proof. done. Qed.

Lemma fold_view_Some k (l : list (nat * Dict)) s d t :
  ∃ s' t', fold_left (view_step k) l (Some (s, d, t)) = Some (s', d, t')
    ∧ (s' == s + rrf_sum k l.*1)%Q ∧ (t' ≤ t)%nat
    ∧ Forall (λ r, (t' ≤ r)%nat) l.*1 ∧ (t' = t ∨ t' ∈ l.*1).
Proof.
  revert s t. induction l as [|[r doc] l IH]; intros s t.
  - exists s, t. simpl. split_and!; [done|ring|done|constructor|by left].
  - simpl. unfold view_step at 2. simpl.
    destruct (IH (s + 1 / inject_Z (k + Z.of_nat r + 1))%Q
                 (if (r <? t)%nat then r else t))
      as (s' & t' & -> & Hs & Ht & Hall & Hin).
    exists s', t'. split; [done|].
    assert (Hmin : ((if (r <? t)%nat then r else t) ≤ t)%nat
                   ∧ ((if (r <? t)%nat then r else t) ≤ r)%nat).
    { destruct (Nat.ltb_spec r t); lia. }
    split_and!.
    + rewrite Hs. change (list_fmap (nat * Dict)%type nat fst l) with (l.*1). ring.
    + lia.
    + constructor; [lia|done].
    + destruct Hin as [->|Hin]; [|right; by right].
      destruct (Nat.ltb_spec r t); [right; left|by left].
Qed.

Lemma fold_view_None k (e : nat * Dict) (l : list (nat * Dict)) :
  ∃ s t, fold_left (view_step k) (e :: l) None = Some (s, e.2, t)
    ∧ (s == rrf_sum k (e :: l).*1)%Q ∧ is_best_rank t (e :: l).*1.
Proof.
  simpl. unfold view_step at 2. simpl.
  destruct (fold_view_Some k l (0 + 1 / inject_Z (k + Z.of_nat e.1 + 1))%Q e.2 e.1)
    as (s & t & -> & Hs & Ht & Hall & Hin).
  exists s, t. split; [done|]. split.
  - rewrite Hs. change (list_fmap (nat * Dict)%type nat fst l) with (l.*1).
    rewrite ?fmap_cons, ?rrf_sum_cons. ring.
  - split.
    + destruct Hin as [->|Hin]; [left | by right].
    + constructor; [done|done].
Qed.

Lemma od_get_is_Some {V} (k : string) (d : odict V) :
  k ∈ od_keys d → is_Some (od_get k d).
Proof.
  intros Hin. destruct (od_get k d) eqn:E; [by eexists|].
  by apply od_get_None in E.
Qed.

Lemma rrf_bonus_spec (tr : odict nat) (sc : odict Q) :
  NoDup (od_keys tr) → (∀ i, i ∈ od_keys tr → i ∈ od_keys sc) →
  ∃ sc', rrf_bonus sc tr = Ok sc' ∧ od_keys sc' = od_keys sc
    ∧ ∀ i, od_get i sc'
           = match od_get i tr with
             | Some t => (λ s, with_bonus s t) <$> od_get i sc
             | None => od_get i sc
             end.
Proof.
  revert sc. induction tr as [|[i t] tr IH]; intros sc Hnd Hsub.
  - exists sc. by simpl.
  - apply NoDup_cons in Hnd as [Hni Hnd]. simpl in Hni.
    apply od_get_None in Hni.
    destruct (od_get_is_Some i sc) as [s Hs]; [apply Hsub; left|].
    assert (Hin : i ∈ od_keys sc) by (apply Hsub; left).
    assert (Hstep : ∀ b,
      ∃ sc', rrf_bonus (od_set i (s + b)%Q sc) tr = Ok sc'
        ∧ od_keys sc' = od_keys sc
        ∧ ∀ j, od_get j sc'
               = if decide (i = j) then Some (s + b)%Q
                 else match od_get j tr with
                      | Some t => (λ s, with_bonus s t) <$> od_get j sc
                      | None => od_get j sc
                      end).
    { intros b. destruct (IH (od_set i (s + b)%Q sc) Hnd) as (sc' & Hrun & Hk & Hget).
      - intros j Hj. rewrite od_keys_set, decide_True, app_nil_r by done.
        apply Hsub. by right.
      - exists sc'. split; [done|]. split.
        + rewrite Hk, od_keys_set, decide_True, app_nil_r; done.
        + intros j. rewrite Hget. destruct (decide (i = j)) as [<-|Hne].
          * rewrite Hni. apply od_get_set_eq.
          * by rewrite od_get_set_ne. }
    simpl. unfold od_index. rewrite Hs. simpl.
    destruct (Nat.eqb_spec t 0) as [->|Ht0];
      [|destruct (Nat.leb_spec t 2) as [Ht2|Ht2]].
    + destruct (Hstep bonus_first) as (sc' & -> & Hk & Hget).
      exists sc'. split_and!; [done|done|]. intros j. rewrite Hget.
      destruct (decide (i = j)) as [<-|]; [by rewrite Hs|done].
    + destruct (Hstep bonus_top3) as (sc' & -> & Hk & Hget).
      exists sc'. split_and!; [done|done|]. intros j. rewrite Hget.
      destruct (decide (i = j)) as [<-|]; [|done].
      rewrite Hs. simpl. unfold with_bonus.
      destruct (Nat.eqb_spec t 0); [done|].
      destruct (Nat.leb_spec t 2); [done|lia].
    + destruct (IH sc Hnd) as (sc' & -> & Hk & Hget).
      { intros j Hj. apply Hsub. by right. }
      exists sc'. split_and!; [done|done|]. intros j. rewrite Hget.
      destruct (decide (i = j)) as [<-|]; [|done].
      rewrite Hni, Hs. simpl. unfold with_bonus.
      destruct (Nat.eqb_spec t 0); [done|].
      destruct (Nat.leb_spec t 2); [lia|done].
Qed.

Lemma rrf_build_spec score_key (dc : odict Dict) (sorted : odict Q) results :
  (∀ p, p ∈ sorted → is_Some (od_get p.1 dc)) →
  rrf_build score_key dc sorted results
  = Ok (results
        ++ imap (λ n p, decorate score_key (length results + n) p.2
                          (default ∅ (od_get p.1 dc))) sorted).
Proof.
  revert results. induction sorted as [|[i s] sorted IH]; intros results Hin.
  - simpl. by rewrite app_nil_r.
  - destruct (Hin (i, s)) as [d Hd]; [left|]. simpl in Hd.
    simpl. unfold od_index. rewrite Hd. simpl.
    rewrite IH by (intros p Hp; apply Hin; by right).
    rewrite <- app_assoc. simpl. unfold decorate at 2. rewrite Nat.add_0_r.
    do 3 f_equal. apply imap_ext. intros n p _. simpl.
    rewrite length_app. simpl. f_equal. lia.
Qed.

Lemma elem_of_new_ids seen l i : i ∈ new_ids seen l ↔ i ∈ l ∧ i ∉ seen.
Proof.
  revert seen. induction l as [|j l IH]; intros seen; simpl.
  - split; [by intros ?%elem_of_nil | by intros [?%elem_of_nil _]].
  - destruct (decide (j ∈ seen)) as [Hj|Hj].
    + rewrite IH, elem_of_cons. split; [naive_solver|].
      intros [[->|?] ?]; done.
    + rewrite elem_of_cons, IH, elem_of_cons, not_elem_of_app, not_elem_of_cons.
      split.
      * intros [->|(? & ? & ?)]; [split; [by left|done] | split; [by right|done]].
      * intros [[->|?] ?]; [by left|].
        destruct (decide (i = j)) as [->|]; [by left|right].
        split_and!; [done|done|done|apply not_elem_of_nil].
Qed.

Lemma NoDup_new_ids seen l : NoDup (new_ids seen l).
Proof.
  revert seen. induction l as [|j l IH]; intros seen; simpl; [constructor|].
  destruct (decide (j ∈ seen)); [apply IH|].
  constructor; [|apply IH].
  rewrite elem_of_new_ids, not_elem_of_app, not_elem_of_cons. naive_solver.
Qed.

Lemma filter_bears_nil id_key i (evs : list (nat * Dict)) :
  filter (bears id_key i) evs = []
  ↔ i ∉ omap (λ e : nat * Dict, doc_id id_key e.2) evs.
Proof.
  rewrite list_elem_of_omap. split.
  - intros Hnil (e & He & Hid).
    assert (e ∈ filter (bears id_key i) evs) as Hin
      by (apply list_elem_of_filter; done).
    rewrite Hnil in Hin. by apply elem_of_nil in Hin.
  - intros Hno. destruct (filter _ evs) as [|e rest] eqn:E; [done|].
    exfalso. apply Hno. exists e.
    assert (e ∈ filter (bears id_key i) evs) as Hin by (rewrite E; left).
    apply list_elem_of_filter in Hin as [? ?]. done.
Qed.

Lemma elem_of_first_seen id_key result_lists i :
  i ∈ first_seen id_key result_lists ↔ appearances id_key i result_lists ≠ [].
Proof.
  unfold first_seen, appearances. rewrite elem_of_new_ids.
  split.
  - intros [Hin _] Hnil. apply fmap_nil_inv in Hnil.
    by apply filter_bears_nil in Hnil.
  - intros Hne. split; [|apply not_elem_of_nil].
    destruct (decide (i ∈ omap (λ e : nat * Dict, doc_id id_key e.2)
                           (events result_lists))) as [|Hn]; [done|].
    apply filter_bears_nil in Hn. by rewrite Hn in Hne.
Qed.

Lemma view_Some i acc s d t :
  view i acc = Some (s, d, t) →
  od_get i (scores acc) = Some s ∧ od_get i (docs acc) = Some d
  ∧ od_get i (top_ranks acc) = Some t.
Proof.
  unfold view. destruct (od_get i (scores acc)); simpl; [|done].
  destruct (od_get i (docs acc)); simpl; [|done].
  destruct (od_get i (top_ranks acc)); simpl; [|done].
  by intros [= -> -> ->].
Qed.

Lemma with_bonus_rank_bonus s t : (with_bonus s t == s + rank_bonus true t)%Q.
Proof.
  unfold with_bonus, rank_bonus.
  destruct (t =? 0)%nat; [ring|]. destruct (t <=? 2)%nat; ring.
Qed.

(** The three loops and the sort, in closed form: the fused list is the
    sorted list of the final scores, each entry decorated; the scores stand
    in first-seen order before the sort. *)
Lemma rrf_characterisation result_lists k id_key score_key top_rank_bonus :
  (0 ≤ k)%Z →
  ∃ (sc : odict Q) (dc : odict Dict),
    reciprocal_rank_fusion result_lists k id_key score_key top_rank_bonus
    = Ok (imap (λ n p, decorate score_key n p.2 (default ∅ (od_get p.1 dc)))
            (sorted_desc snd sc))
    ∧ od_keys sc = first_seen id_key result_lists
    ∧ ∀ i, i ∈ first_seen id_key result_lists →
        ∃ s d t e rest,
          od_get i sc = Some s ∧ od_get i dc = Some d
          ∧ filter (bears id_key i) (events result_lists) = e :: rest ∧ d = e.2
          ∧ is_best_rank t (appearances id_key i result_lists)
          ∧ (s == rrf_sum k (appearances id_key i result_lists)
                  + rank_bonus top_rank_bonus t)%Q.
Proof.
  intros Hk.
  destruct (run_events_spec k id_key (events result_lists) (RrfAcc [] [] []) Hk)
    as (acc & Hrun & Hsync & Hkeys & Hviews); [by split|].
  simpl in Hkeys. fold (first_seen id_key result_lists) in Hkeys.
  assert (Hnd : NoDup (od_keys (top_ranks acc))).
  { destruct Hsync as [_ <-]. rewrite Hkeys. apply NoDup_new_ids. }
  assert (Hsc : ∃ sc,
    (if top_rank_bonus then rrf_bonus (scores acc) (top_ranks acc)
     else Ok (scores acc)) = Ok sc
    ∧ od_keys sc = od_keys (scores acc)
    ∧ ∀ i s t, od_get i (scores acc) = Some s → od_get i (top_ranks acc) = Some t →
        ∃ s', od_get i sc = Some s' ∧ (s' == s + rank_bonus top_rank_bonus t)%Q).
  { destruct top_rank_bonus.
    - destruct (rrf_bonus_spec (top_ranks acc) (scores acc) Hnd)
        as (sc & Hb & Hk' & Hget).
      { intros i. by destruct Hsync as [_ ->]. }
      exists sc. split_and!; [done|done|]. intros i s t Hs Ht.
      exists (with_bonus s t). rewrite Hget, Ht, Hs. split; [done|].
      apply with_bonus_rank_bonus.
    - exists (scores acc). split_and!; [done|done|]. intros i s t Hs _.
      exists s. split; [done|]. unfold rank_bonus. ring. }
  destruct Hsc as (sc & Hbonus & Hksc & Hget).
  exists sc, (docs acc). split_and!.
  - unfold reciprocal_rank_fusion. destruct result_lists as [|l ls].
    + cbn in Hrun. injection Hrun as <-.
      assert (sc = []) as -> by (destruct top_rank_bonus; simpl in Hbonus; congruence).
      done.
    + rewrite rrf_outer_events, Hrun. simpl. rewrite Hbonus. simpl.
      rewrite rrf_build_spec; [done|].
      intros p Hp. rewrite sorted_desc_perm in Hp. apply od_get_is_Some.
      destruct Hsync as [<- _]. rewrite <- Hksc.
      apply list_elem_of_fmap. by exists p.
  - by rewrite Hksc.
  - intros i Hi. pose proof Hi as Happ. apply elem_of_first_seen in Happ.
    unfold appearances in *.
    destruct (filter (bears id_key i) (events result_lists)) as [|e rest] eqn:E;
      [done|].
    specialize (Hviews i). rewrite E in Hviews.
    change (view i (RrfAcc [] [] [])) with (@None (Q * Dict * nat)) in Hviews.
    destruct (fold_view_None k e rest) as (s & t & Hfold & Hs & Hbest).
    rewrite Hfold in Hviews. apply view_Some in Hviews as (Hgs & Hgd & Hgt).
    destruct (Hget i s t Hgs Hgt) as (s' & Hs' & Heq).
    exists s', e.2, t, e, rest. split_and!; [done|done|done|done|done|].
    by rewrite Heq, Hs.
Qed.

Lemma od_get_elem_of {V} (k : string) (v : V) (d : odict V) :
  NoDup (od_keys d) → (k, v) ∈ d → od_get k d = Some v.
Proof.
  unfold od_keys. induction d as [|[k' v'] d IH].
  - by intros _ ?%elem_of_nil.
  - rewrite fmap_cons. cbn [od_get fst].
    intros [Hk Hnd]%NoDup_cons [[= -> ->]|Hin]%elem_of_cons.
    + by rewrite decide_True.
    + rewrite decide_False; [by apply IH|].
      intros ->. apply Hk. apply list_elem_of_fmap. by exists (k, v).
Qed.

Lemma StronglySorted_imap {A B} (R : A → A → Prop) (R' : B → B → Prop)
    (f : nat → A → B) (l : list A) :
  (∀ i j a b, a ∈ l → b ∈ l → R a b → R' (f i a) (f j b)) →
  StronglySorted R l → StronglySorted R' (imap f l).
Proof.
  intros Hf Hl. revert f Hf. induction Hl as [|x l Hl IH Hx]; intros f Hf.
  - constructor.
  - rewrite imap_cons. constructor.
    + apply IH. intros i j a b Ha Hb. apply Hf; by right.
    + apply Forall_forall. intros y (j & b & -> & Hb)%elem_of_lookup_imap.
      apply list_elem_of_lookup_2 in Hb. apply Hf; [left|by right|].
      rewrite Forall_forall in Hx. by apply Hx.
Qed.

Lemma StronglySorted_lookup {A} (R : A → A → Prop) (l : list A) i j a b :
  StronglySorted R l → (i < j)%nat → l !! i = Some a → l !! j = Some b → R a b.
Proof.
  intros Hl. revert i j. induction Hl as [|x l Hl IH Hx]; intros i j Hij Hi Hj.
  - done.
  - destruct j as [|j]; [lia|]. simpl in Hj. destruct i as [|i].
    + injection Hi as <-. rewrite Forall_forall in Hx.
      apply Hx. by eapply list_elem_of_lookup_2.
    + simpl in Hi. apply (IH i j); [lia|done|done].
Qed.

Lemma doc_id_decorate n s (d : Dict) :
  doc_id "file_path" (decorate "score" n s d) = doc_id "file_path" d.
Proof. unfold doc_id, decorate. by rewrite !lookup_insert_ne. Qed.

Lemma score_decorate n s (d : Dict) :
  decorate "score" n s d !! "score" = Some (VFloat s).
Proof. unfold decorate. by rewrite lookup_insert_ne, lookup_insert_eq. Qed.

Lemma rank_decorate score_key n s (d : Dict) :
  decorate score_key n s d !! "rrf_rank" = Some (VInt (Z.of_nat n)).
Proof. unfold decorate. by rewrite lookup_insert_eq. Qed.

Lemma score_of_decorate n s (d : Dict) : score_of (decorate "score" n s d) = s.
Proof. unfold score_of. by rewrite score_decorate. Qed.

(** The fused list under the default keys: the entry at position [n] is the
    first doc seen with the id at position [n] of the sorted scores. *)
Lemma rrf_default_shape result_lists k top_rank_bonus :
  (0 ≤ k)%Z →
  ∃ (sc : odict Q) (dc : odict Dict),
    reciprocal_rank_fusion result_lists k "file_path" "score" top_rank_bonus
    = Ok (imap (λ n p, decorate "score" n p.2 (default ∅ (od_get p.1 dc)))
            (sorted_desc snd sc))
    ∧ od_keys sc = first_seen "file_path" result_lists
    ∧ ∀ p, p ∈ sc →
        ∃ t e rest,
          od_get p.1 dc = Some e.2
          ∧ filter (bears "file_path" p.1) (events result_lists) = e :: rest
          ∧ is_best_rank t (appearances "file_path" p.1 result_lists)
          ∧ (p.2 == rrf_sum k (appearances "file_path" p.1 result_lists)
                    + rank_bonus top_rank_bonus t)%Q.
Proof.
  intros Hk.
  destruct (rrf_characterisation result_lists k "file_path" "score"
              top_rank_bonus Hk) as (sc & dc & Heq & Hkeys & Hfacts).
  exists sc, dc. split_and!; [done|done|].
  intros [i s] Hp. simpl.
  assert (Hi : i ∈ first_seen "file_path" result_lists).
  { rewrite <- Hkeys. apply list_elem_of_fmap. by exists (i, s). }
  destruct (Hfacts i Hi) as (s' & d & t & e & rest & Hs & Hd & He & -> & Hb & Hsum).
  assert (s' = s) as ->.
  { apply od_get_elem_of in Hp; [congruence|].
    rewrite Hkeys. apply NoDup_new_ids. }
  by exists t, e, rest.
Qed.

Lemma bears_head id_key i (evs : list (nat * Dict)) e rest :
  filter (bears id_key i) evs = e :: rest → doc_id id_key e.2 = Some i.
Proof.
  intros E. assert (e ∈ filter (bears id_key i) evs) as Hin by (rewrite E; left).
  by apply list_elem_of_filter in Hin as [? _].
Qed.

(** ** A single list with distinct ids *)

Lemma StronglySorted_from_lookup {A} (R : A → A → Prop) (l : list A) :
  (∀ i j a b, (i < j)%nat → l !! i = Some a → l !! j = Some b → R a b) →
  StronglySorted R l.
Proof.
  induction l as [|x l IH]; intros H; constructor.
  - apply IH. intros i j a b Hij Hi Hj. apply (H (S i) (S j)); [lia|done|done].
  - apply Forall_forall. intros y [j Hj]%list_elem_of_lookup.
    apply (H 0%nat (S j)); [lia|done|done].
Qed.

Lemma filter_none {A} (P : A → Prop) `{!∀ x, Decision (P x)} (l : list A) :
  (∀ x, x ∈ l → ¬ P x) → filter P l = [].
Proof.
  induction l as [|x l IH]; intros Hno; [done|].
  rewrite filter_cons, decide_False by (apply Hno; left).
  apply IH. intros y Hy. apply Hno. by right.
Qed.

Lemma filter_bears_single id_key i (L : list Dict) (r n : nat) d :
  NoDup (doc_id id_key <$> L) → L !! n = Some d → doc_id id_key d = Some i →
  filter (bears id_key i) (imap (λ m x, ((r + m)%nat, x)) L) = [((r + n)%nat, d)].
Proof.
  revert r n. induction L as [|d0 L IH]; intros r n Hnd Hn Hid; [done|].
  rewrite fmap_cons in Hnd. apply NoDup_cons in Hnd as [Hd0 Hnd].
  rewrite imap_cons, filter_cons. destruct n as [|n]; simpl in Hn.
  - injection Hn as ->. rewrite decide_True by done. f_equal.
    apply filter_none. intros [m x] (j & y & [= -> ->] & Hy)%elem_of_lookup_imap Hb.
    unfold bears in Hb. simpl in Hb. apply Hd0. rewrite Hid, <- Hb.
    apply list_elem_of_fmap. exists y. split; [done|by eapply list_elem_of_lookup_2].
  - rewrite decide_False.
    + rewrite (imap_ext _ (λ m x, ((S r + m)%nat, x))).
      * rewrite (IH (S r) n Hnd Hn Hid). do 2 f_equal. lia.
      * intros m x _. simpl. f_equal. lia.
    + unfold bears. simpl. intros Hb. apply Hd0. rewrite Hb, <- Hid.
      apply list_elem_of_fmap. exists d. split; [done|by eapply list_elem_of_lookup_2].
Qed.

Lemma events_single (L : list Dict) : events [L] = imap (λ m x, ((0 + m)%nat, x)) L.
Proof. unfold events. simpl. by rewrite app_nil_r. Qed.

Lemma omap_events_gen id_key (L : list Dict) (f : nat → nat) :
  omap (λ e : nat * Dict, doc_id id_key e.2) (imap (λ m x, (f m, x)) L)
  = omap (doc_id id_key) L.
Proof.
  revert f. induction L as [|d L IH]; intros f; [done|].
  rewrite imap_cons. simpl.
  destruct (doc_id id_key d); [f_equal|]; exact (IH (λ m, f (S m))).
Qed.

Lemma omap_events_single id_key (L : list Dict) (r : nat) :
  omap (λ e : nat * Dict, doc_id id_key e.2) (imap (λ m x, ((r + m)%nat, x)) L)
  = omap (doc_id id_key) L.
Proof. apply (omap_events_gen id_key L (λ m, (r + m)%nat)). Qed.

Lemma new_ids_fresh seen l :
  NoDup l → (∀ i, i ∈ l → i ∉ seen) → new_ids seen l = l.
Proof.
  revert seen. induction l as [|i l IH]; intros seen Hnd Hfresh; [done|].
  apply NoDup_cons in Hnd as [Hi Hnd]. simpl.
  rewrite decide_False by (apply Hfresh; left). f_equal.
  apply IH; [done|]. intros j Hj. rewrite not_elem_of_app, not_elem_of_cons.
  split_and!; [apply Hfresh; by right| |apply not_elem_of_nil].
  intros ->. done.
Qed.

Lemma fmap_doc_id_omap id_key (L : list Dict) :
  Forall (λ d, is_Some (doc_id id_key d)) L →
  doc_id id_key <$> L = Some <$> omap (doc_id id_key) L.
Proof.
  induction 1 as [|d L [i Hi] _ IH]; [done|].
  rewrite fmap_cons, IH. simpl. by rewrite Hi.
Qed.

Lemma first_seen_single id_key (L : list Dict) :
  Forall (λ d, is_Some (doc_id id_key d)) L → NoDup (doc_id id_key <$> L) →
  first_seen id_key [L] = omap (doc_id id_key) L.
Proof.
  intros Hall Hnd. unfold first_seen.
  rewrite events_single, omap_events_single.
  apply new_ids_fresh; [|intros; apply not_elem_of_nil].
  rewrite fmap_doc_id_omap in Hnd by done. by apply NoDup_fmap in Hnd; [|apply _].
Qed.

Lemma Qdiv_one_le (a b : Z) :
  (0 < a)%Z → (a ≤ b)%Z → (1 / inject_Z b <= 1 / inject_Z a)%Q.
Proof.
  intros Ha Hab. destruct a as [|pa|pa]; try lia. destruct b as [|pb|pb]; try lia.
  unfold Qle, Qdiv, Qmult, Qinv, inject_Z. simpl. lia.
Qed.

Lemma rank_bonus_mono (m n : nat) :
  (m < n)%nat → (rank_bonus true n <= rank_bonus true m)%Q.
Proof.
  intros Hmn. unfold rank_bonus, bonus_first, bonus_top3, Qle.
  destruct m as [|[|[|m]]], n as [|[|[|n]]]; simpl; lia.
Qed.

Lemma single_score_mono (m n : nat) :
  (m < n)%nat →
  (rrf_sum 60 [n] + rank_bonus true n <= rrf_sum 60 [m] + rank_bonus true m)%Q.
Proof.
  intros Hmn. apply Qplus_le_compat; [|by apply rank_bonus_mono].
  unfold rrf_sum. simpl. apply Qplus_le_compat; [|apply Qle_refl].
  apply Qdiv_one_le; lia.
Qed.

Lemma is_best_rank_single t n : is_best_rank t [n] → t = n.
Proof. intros [Hin _]. by apply list_elem_of_singleton in Hin. Qed.

Lemma before_fmap {A B} (f : A → B) (l : list A) a b :
  before l a b → before (f <$> l) (f a) (f b).
Proof.
  intros (i & j & Hij & Hi & Hj). exists i, j.
  rewrite !list_lookup_fmap, Hi, Hj. done.
Qed.

(** ** Position-aware blend *)

Lemma as_float_numeric v : numeric v → ∃ q, as_float v = Ok q.
Proof. destruct v; try done; by eexists. Qed.

Lemma blend_weight_formula i rrf rer :
  (blend_weight i * rrf + (1 - blend_weight i) * rer == blend_formula i rrf rer)%Q.
Proof.
  unfold blend_weight, blend_formula.
  destruct (i <? 3)%nat; [ring|]. destruct (i <? 10)%nat; ring.
Qed.

Lemma blend_record_spec rerank_scores id_key i (doc : Dict) :
  numeric (default (VInt 0) (doc !! "score")) →
  ∃ rrf rerank_value s,
    as_float (default (VInt 0) (doc !! "score")) = Ok rrf
    ∧ as_float rerank_value = Ok (rerank_of rerank_scores id_key doc)
    ∧ (s == blend_formula i rrf (rerank_of rerank_scores id_key doc))%Q
    ∧ blend_record rerank_scores id_key i doc
      = Ok (<[ "score" := VFloat s ]>
              (<[ "rerank_score" := rerank_value ]>
                 (<[ "rrf_score" := default (VInt 0) (doc !! "score") ]> doc))).
Proof.
  intros [rrf Hrrf]%as_float_numeric. unfold blend_record, rerank_of.
  rewrite Hrrf. simpl.
  destruct (rerank_scores !! (doc !! id_key ≫= dict_key)) as [q|]; simpl.
  - exists rrf, (VFloat q), (blend_weight i * rrf + (1 - blend_weight i) * q)%Q.
    split_and!; [done|done|apply blend_weight_formula|done].
  - exists rrf, (VInt 0),
      (blend_weight i * rrf + (1 - blend_weight i) * inject_Z 0)%Q.
    split_and!; [done|done|apply blend_weight_formula|done].
Qed.

Lemma blend_loop_spec rerank_scores id_key (l : list Dict) (i0 : nat) :
  Forall (λ d, numeric (default (VInt 0) (d !! "score"))) l →
  ∃ blended,
    blend_loop rerank_scores id_key i0 l = Ok blended
    ∧ length blended = length l
    ∧ ∀ n doc, l !! n = Some doc →
        blend_record rerank_scores id_key (i0 + n) doc
        = Ok (default ∅ (blended !! n))
        ∧ is_Some (blended !! n).
Proof.
  intros Hall. revert i0. induction Hall as [|doc l Hdoc _ IH]; intros i0.
  - exists []. split_and!; [done|done|]. intros n doc. by rewrite lookup_nil.
  - destruct (blend_record_spec rerank_scores id_key i0 doc Hdoc)
      as (rrf & rv & s & _ & _ & _ & Hrec).
    destruct (IH (S i0)) as (blended & Hloop & Hlen & Hat).
    eexists. simpl. rewrite Hrec. simpl. rewrite Hloop. simpl.
    split_and!; [done|simpl; by rewrite Hlen|].
    intros [|n] d Hd; simpl in Hd.
    + injection Hd as <-. rewrite Nat.add_0_r. simpl. split; [done|by eexists].
    + destruct (Hat n d Hd) as [Hr Hs]. simpl.
      replace (i0 + S n)%nat with (S i0 + n)%nat by lia. done.
Qed.

(** ** The indexer *)

Ltac run_M :=
  unfold mbind, M_bind, mret, M_ret, lift, raise, get_state, put_state,
    try_except, log_message in *;
  simpl in *.

Section indexer_lemmas.
Context (env : Backends) (settings : Settings).

Lemma post_embed_stores text st r st' :
  post_embed env text st = (r, st') →
  st_db st' = st_db st ∧ st_fts st' = st_fts st ∧ st_cache st' = st_cache st
  ∧ st_cancel st' = st_cancel st.
Proof.
  unfold post_embed. destruct (ollama_embed env _ _); intros [= <- <-]; done.
Qed.

Lemma get_embedding_stores text st r st' :
  Indexer.get_embedding env text st = (r, st') →
  st_db st' = st_db st ∧ st_fts st' = st_fts st ∧ st_cancel st' = st_cancel st.
Proof.
  unfold Indexer.get_embedding. run_M.
  destruct (st_cache st !! md5_hex env text).
  - by intros [= <- <-].
  - destruct (post_embed env text st) as [[v|e] st1] eqn:E;
      apply post_embed_stores in E as (? & ? & ? & ?); intros [= <- <-]; done.
Qed.

Lemma embed_chunk_stores records chunk st r st' :
  Indexer.embed_chunk env records chunk st = (r, st') →
  (∃ records', r = Ok records')
  ∧ st_db st' = st_db st ∧ st_fts st' = st_fts st ∧ st_cancel st' = st_cancel st.
Proof.
  unfold Indexer.embed_chunk. run_M.
  destruct (Indexer.get_embedding env _ st) as [[v|e] st1] eqn:E;
    apply get_embedding_stores in E as (? & ? & ?).
  - destruct (Indexer.make_record chunk v); intros [= <- <-]; simpl;
      split_and!; eauto.
  - intros [= <- <-]. simpl. split_and!; eauto.
Qed.

Lemma embed_loop_stores chunks records st r st' :
  Indexer.embed_loop env chunks records st = (r, st') →
  (∃ looped, r = Ok looped)
  ∧ st_db st' = st_db st ∧ st_fts st' = st_fts st.
Proof.
  revert records st. induction chunks as [|chunk rest IH]; intros records st.
  - simpl. run_M. intros [= <- <-]. eauto.
  - simpl. run_M. destruct (st_cancel st).
    + intros [= <- <-]. eauto.
    + destruct (Indexer.embed_chunk env records chunk st) as [r1 st1] eqn:E.
      apply embed_chunk_stores in E as ([records' ->] & Hdb & Hfts & _).
      intros H. apply IH in H as (? & ? & ?). split_and!; [done|congruence|congruence].
Qed.

(** With the backend down and nothing cached, no chunk gets a record. *)
Lemma embed_loop_all_fail chunks st r st' :
  (∀ n text, ollama_embed env n text = None) →
  (∀ text, st_cache st !! md5_hex env text = None) →
  Indexer.embed_loop env chunks [] st = (r, st') →
  r = Ok (inl 0%nat) ∨ r = Ok (inr []).
Proof.
  intros Hdown. revert st. induction chunks as [|chunk rest IH]; intros st Hcache.
  - simpl. run_M. intros [= <- <-]. by right.
  - simpl. run_M. destruct (st_cancel st); [intros [= <- <-]; by left|].
    unfold Indexer.embed_chunk, Indexer.get_embedding. run_M.
    rewrite Hcache. unfold post_embed. rewrite Hdown. simpl.
    apply IH. done.
Qed.

End indexer_lemmas.

(** ** The searcher *)

Section searcher_lemmas.
Context (env : Backends).
Context (fts_search : gmap string FtsRow → string → string → Z →
                      option string → result (list Dict)).

Lemma search_table_ok query_embedding category person limit results table_name st :
  ∃ results' st',
    Searcher.search_table env query_embedding category person limit results
      table_name st = (Ok results', st').
Proof.
  unfold Searcher.search_table. run_M.
  destruct (st_db st !! table_name); [|by eexists _, _].
  destruct (lance_search env _ _ _ _ _); [|by eexists _, _].
  destruct (Searcher.append_hits _ _ _) as [results' [e|]]; by eexists _, _.
Qed.

Lemma search_tables_ok query_embedding category person limit tables results st :
  ∃ results' st',
    foldM (Searcher.search_table env query_embedding category person limit)
      tables results st = (Ok results', st').
Proof.
  revert results st. induction tables as [|t tables IH]; intros results st.
  - by eexists _, _.
  - simpl. unfold mbind, M_bind.
    destruct (search_table_ok query_embedding category person limit results t st)
      as (results1 & st1 & ->).
    apply IH.
Qed.

Lemma bm25_search_state query vault person limit st r st' :
  Searcher.bm25_search fts_search query vault person limit st = (r, st') → st' = st.
Proof.
  unfold Searcher.bm25_search. run_M.
  destruct (st_fts st); by intros [= _ <-].
Qed.

End searcher_lemmas.

(** ** The reranker *)

Section reranker_lemmas.
Context (env : Backends) (model : string).




Section backend_down.
Hypothesis Hdown : ∀ prompt, ollama_generate env model (GenOptions 0 10) prompt = None.



End backend_down.


End reranker_lemmas.


(** ** The pipeline of [query_search] *)



Lemma rrf_sum_app k rs1 rs2 :
  (rrf_sum k (rs1 ++ rs2) == rrf_sum k rs1 + rrf_sum k rs2)%Q.
Proof.
  induction rs1 as [|r rs1 IH]; simpl.
  - ring.
  - rewrite IH. ring.
Qed.

Lemma appearances_cons id_key i (l : list Dict) (ls : list (list Dict)) :
  appearances id_key i (l :: ls)
  = appearances id_key i [l] ++ appearances id_key i ls.
Proof.
  unfold appearances, events. simpl.
  by rewrite app_nil_r, filter_app, fmap_app.
Qed.

Section pipeline_lemmas.
Context (env : Backends).
Context (fts_search : gmap string FtsRow → string → string → Z →
                      option string → result (list Dict)).

(** [expand_query] does not raise; the original query comes first and at
    most two alternatives follow. *)
Lemma expand_query_head model query st :
  ∃ alternatives st',
    Reranker.expand_query env model query st = (Ok (query :: alternatives), st')
    ∧ (length alternatives ≤ 2)%nat.
Proof.
  unfold Reranker.expand_query.
  destruct (ollama_generate env model _ _) as [response|]; run_M.
  - eexists _, _. split; [done|].
    etrans; [apply List.filter_length_le|].
    rewrite length_map, length_take. lia.
  - eexists _, _. split; [done|]. simpl. lia.
Qed.

Lemma search_all_acc queries vault category person acc st all_results st' :
  foldM (λ all_results q,
           results ← Searcher.hybrid_search env fts_search q vault category person 30;
           mret (all_results ++ [results]))
        queries acc st = (Ok all_results, st') →
  ∃ rest, all_results = acc ++ rest ∧ length rest = length queries.
Proof.
  revert acc st. induction queries as [|q qs IH]; intros acc st; simpl.
  - run_M. intros [= <- <-]. exists []. by rewrite app_nil_r.
  - unfold mbind, M_bind.
    destruct (Searcher.hybrid_search env fts_search q vault category person 30 st)
      as [[results|e] st1]; [|done].
    simpl. intros H. apply IH in H as (rest & -> & Hlen).
    exists (results :: rest). rewrite <- app_assoc. simpl. by rewrite Hlen.
Qed.

(** [search_all] returns one list per query, in the order of the queries;
    the first one is the hybrid result of the first query. *)
Lemma search_all_shape q qs vault category person st all_results st' :
  Searcher.search_all env fts_search (q :: qs) vault category person st
  = (Ok all_results, st') →
  ∃ first rest st1,
    Searcher.hybrid_search env fts_search q vault category person 30 st
    = (Ok first, st1)
    ∧ all_results = first :: rest ∧ length rest = length qs.
Proof.
  unfold Searcher.search_all. simpl. unfold mbind, M_bind.
  destruct (Searcher.hybrid_search env fts_search q vault category person 30 st)
    as [[first|e] st1]; [|intros ?; discriminate].
  simpl. intros H.
  apply search_all_acc in H as (rest & -> & Hlen).
  by exists first, rest, st1.
Qed.

End pipeline_lemmas.

(** [index_file] removes no row whose [file_hash] differs from the hash of
    the content it has just read: the rows written for an earlier content
    of the file survive every later pass over the file. *)
Lemma index_file_keeps_other_hashes env settings path table st r st'
    content rows row :
  read_text env path = Some content →
  st_db st !! table = Some rows →
  row ∈ rows →
  file_hash row ≠ md5_hex env content →
  Indexer.index_file env settings path table st = (r, st') →
  ∃ rows', st_db st' !! table = Some rows' ∧ row ∈ rows'.
Proof.
  intros Hread Htable Hrow Hhash. unfold Indexer.index_file.
  destruct (Indexer.is_excluded _ _); [intros [= <- <-]; eauto|].
  unfold Indexer.read_file. rewrite Hread. run_M.
  destruct (_ <? 50)%nat; [intros [= <- <-]; eauto|].
  destruct (Indexer.extract_metadata env settings path content)
    as [[md body]|e] eqn:Hmd; cbn -[Indexer.embed_loop];
    [|intros [= <- <-]; eauto].
  assert (Hmdhash : Indexer.m_file_hash md = md5_hex env content).
  { unfold Indexer.extract_metadata in Hmd.
    destruct (frontmatter_loads env content) as [[fm b]|];
      destruct (path_relative_parts env path _); simpl in Hmd;
      try discriminate; by injection Hmd as <- <-. }
  destruct (Indexer.chunk_document env settings body md) as [|c cs];
    [intros [= <- <-]; eauto|].
  unfold open_table. rewrite Htable. cbn -[Indexer.embed_loop].
  destruct (Indexer.embed_loop env (c :: cs) [] st) as [r1 st1] eqn:Hloop.
  apply embed_loop_stores in Hloop as ([looped ->] & Hdb & Hfts).
  cbn -[Indexer.embed_loop].
  destruct looped as [n|[|rec recs]]; cbn;
    try (intros [= <- <-]; rewrite Hdb; eauto).
  unfold Indexer.table_delete, Indexer.table_add, Indexer.set_table,
    Indexer.fts_write, open_table. run_M.
  rewrite Hdb, Htable. simpl. rewrite lookup_insert_eq. simpl.
  assert (Hin : row ∈ List.filter
                  (λ r0, negb (String.eqb (file_hash r0) (Indexer.m_file_hash md)))
                  rows ++ rec :: recs).
  { apply elem_of_app. left. apply list_elem_of_In, filter_In.
    split; [by apply list_elem_of_In|].
    apply negb_true_iff, String.eqb_neq. by rewrite Hmdhash. }
  destruct (st_fts st1); simpl; intros [= <- <-]; simpl;
    rewrite lookup_insert_eq; eauto.
Qed.

(** * The properties of the specification *)

(** C2. With a constant [k >= 0], [reciprocal_rank_fusion] returns a list in
    which every id borne by a doc of the input occurs exactly once and no
    entry is without an id; the entry of an id has as its score the sum over
    the appearances of the id at rank [r] of [1/(k + r + 1)], plus, when
    [top_rank_bonus] is set, 0.05 if the best rank of the id is 0 and 0.02
    if it is 1 or 2; the list is sorted by score descending and the entry at
    position [n] carries [rrf_rank = n]. *)
Theorem rrf_scores_and_order (result_lists : list (list Dict)) (k : Z)
    (top_rank_bonus : bool) :
  (0 ≤ k)%Z →
  ∃ out,
    reciprocal_rank_fusion result_lists k "file_path" "score" top_rank_bonus = Ok out
    ∧ NoDup (doc_id "file_path" <$> out)
    ∧ (∀ i, Some i ∈ (doc_id "file_path" <$> out)
            ↔ appearances "file_path" i result_lists ≠ [])
    ∧ (∀ n d, out !! n = Some d →
         ∃ i s best,
           doc_id "file_path" d = Some i
           ∧ d !! "score" = Some (VFloat s)
           ∧ is_best_rank best (appearances "file_path" i result_lists)
           ∧ (s == rrf_sum k (appearances "file_path" i result_lists)
                   + rank_bonus top_rank_bonus best)%Q
           ∧ d !! "rrf_rank" = Some (VInt (Z.of_nat n)))
    ∧ StronglySorted (desc_by score_of) out.
Proof.
  intros Hk.
  destruct (rrf_default_shape result_lists k top_rank_bonus Hk)
    as (sc & dc & Heq & Hkeys & Hfacts).
  eexists. split; [exact Heq|].
  assert (Hin : ∀ p, p ∈ sorted_desc snd sc → p ∈ sc)
    by (intros p; by rewrite sorted_desc_perm).
  assert (Hids : doc_id "file_path"
                   <$> imap (λ n p, decorate "score" n p.2 (default ∅ (od_get p.1 dc)))
                         (sorted_desc snd sc)
                 = Some <$> (sorted_desc snd sc).*1).
  { rewrite fmap_imap, <- list_fmap_compose, <- imap_const.
    apply imap_ext. intros n p Hp. simpl. rewrite doc_id_decorate.
    destruct (Hfacts p) as (t & e & rest & -> & He & _);
      [by apply Hin, list_elem_of_lookup_2 with n|].
    simpl. by apply bears_head in He. }
  split_and!.
  - rewrite Hids. apply (NoDup_fmap_2 _).
    rewrite sorted_desc_perm. fold (od_keys sc). rewrite Hkeys. apply NoDup_new_ids.
  - intros i. rewrite Hids, <- elem_of_first_seen, <- Hkeys.
    rewrite (list_elem_of_fmap_inj _). unfold od_keys. by rewrite sorted_desc_perm.
  - intros n d Hd. rewrite list_lookup_imap in Hd.
    destruct (sorted_desc snd sc !! n) as [p|] eqn:Hp; [|done].
    injection Hd as <-.
    destruct (Hfacts p) as (t & e & rest & Hdc & He & Hbest & Hsum);
      [by apply Hin, list_elem_of_lookup_2 with n|].
    exists p.1, p.2, t. rewrite doc_id_decorate, Hdc. simpl.
    split_and!; [by apply bears_head in He|apply score_decorate|done|done|
                 apply rank_decorate].
  - eapply StronglySorted_imap; [|apply (sorted_desc_sorted snd)].
    intros i j a b _ _ Hab. unfold desc_by in *. by rewrite !score_of_decorate.
Qed.

Lemma rrf_scores_and_order_witness :
  (0 ≤ 60)%Z
  ∧ ∃ out,
      reciprocal_rank_fusion scenario_lists 60 "file_path" "score" true = Ok out
      ∧ NoDup (doc_id "file_path" <$> out)
      ∧ StronglySorted (desc_by score_of) out.
Proof.
  split; [lia|].
  destruct (rrf_scores_and_order scenario_lists 60 true) as (out & H1 & H2 & _ & _ & H5);
    [lia|].
  exists out. split_and!; assumption.
Defined.

(** C7, as stated, fails: in a single list whose last id occurs twice, the
    two occurrences add up and the id overtakes the one before it. *)
Lemma rrf_single_list_reorders :
  ¬ (∀ L : list Dict,
       Forall (λ d, is_Some (doc_id "file_path" d)) L →
       ∃ out, reciprocal_rank_fusion [L] 60 "file_path" "score" true = Ok out
              ∧ omap (doc_id "file_path") out = first_seen "file_path" [L]).
Proof.
  intros H. destruct (H repeated_list) as (out & Hout & Hids).
  - unfold repeated_list, doc_of. repeat constructor; by eexists.
  - vm_compute in Hout. injection Hout as <-. vm_compute in Hids. discriminate.
Qed.

(** C7, amended. For every single ranked list [L] whose docs bear pairwise
    distinct ids, [reciprocal_rank_fusion([L])] (k = 60, top-rank bonus on)
    returns the docs of [L] in the order of [L], each with its score and
    its [rrf_rank]. For any input, the fused list is ordered by score
    descending, and docs with equal scores stand in the order in which
    their ids were first observed. *)
Theorem rrf_single_list_and_ties :
  (∀ L : list Dict,
     Forall (λ d, is_Some (doc_id "file_path" d)) L →
     NoDup (doc_id "file_path" <$> L) →
     ∃ out, reciprocal_rank_fusion [L] 60 "file_path" "score" true = Ok out
            ∧ length out = length L
            ∧ ∀ n d, L !! n = Some d →
                ∃ s, out !! n = Some (decorate "score" n s d))
  ∧ (∀ (result_lists : list (list Dict)) (k : Z) (top_rank_bonus : bool),
       (0 ≤ k)%Z →
       ∃ out, reciprocal_rank_fusion result_lists k "file_path" "score"
                top_rank_bonus = Ok out
              ∧ StronglySorted (fused_order result_lists) out).
Proof.
  split.
  - intros L Hall Hnd.
    destruct (rrf_default_shape [L] 60 true) as (sc & dc & Heq & Hkeys & Hfacts);
      [lia|].
    rewrite first_seen_single in Hkeys by done.
    assert (Hat : ∀ n p, sc !! n = Some p →
      ∃ d, L !! n = Some d ∧ od_get p.1 dc = Some d
           ∧ (p.2 == rrf_sum 60 [n] + rank_bonus true n)%Q).
    { intros n p Hp.
      assert (Hidn : (doc_id "file_path" <$> L) !! n = Some (Some p.1)).
      { rewrite fmap_doc_id_omap, <- Hkeys by done. unfold od_keys.
        by rewrite !list_lookup_fmap, Hp. }
      rewrite list_lookup_fmap in Hidn.
      destruct (L !! n) as [d|] eqn:Hd; [|done]. injection Hidn as Hid.
      destruct (Hfacts p) as (t & e & rest & Hdc & He & Hbest & Hsum);
        [by eapply list_elem_of_lookup_2|].
      unfold appearances in *. rewrite events_single in *.
      rewrite (filter_bears_single _ _ _ _ _ _ Hnd Hd Hid) in *.
      injection He as <- <-. simpl in *.
      apply is_best_rank_single in Hbest as ->.
      exists d. by split_and!. }
    assert (Hsorted : StronglySorted (desc_by snd) sc).
    { apply StronglySorted_from_lookup. intros i j a b Hij Ha Hb.
      destruct (Hat i a Ha) as (_ & _ & _ & Hsa).
      destruct (Hat j b Hb) as (_ & _ & _ & Hsb).
      unfold desc_by. rewrite Hsa, Hsb. by apply single_score_mono. }
    rewrite (sorted_desc_id _ _ Hsorted) in Heq.
    eexists. split; [exact Heq|]. split.
    + rewrite length_imap. rewrite <- (length_fmap fst sc).
      fold (od_keys sc). rewrite Hkeys.
      rewrite <- (length_fmap Some), <- fmap_doc_id_omap by done.
      by rewrite length_fmap.
    + intros n d Hd. rewrite list_lookup_imap.
      destruct (sc !! n) as [p|] eqn:Hp.
      * destruct (Hat n p Hp) as (d' & Hd' & Hdc & _).
        assert (d' = d) as -> by congruence.
        exists p.2. simpl. by rewrite Hdc.
      * exfalso. apply lookup_ge_None in Hp. apply lookup_lt_Some in Hd.
        assert (length sc = length L); [|lia].
        rewrite <- (length_fmap fst sc). fold (od_keys sc). rewrite Hkeys.
        rewrite <- (length_fmap Some), <- fmap_doc_id_omap by done.
        by rewrite length_fmap.
  - intros result_lists k top_rank_bonus Hk.
    destruct (rrf_default_shape result_lists k top_rank_bonus Hk)
      as (sc & dc & Heq & Hkeys & Hfacts).
    eexists. split; [exact Heq|].
    eapply StronglySorted_imap; [|apply (sorted_desc_stable snd)].
    intros i j a b Ha Hb Hab. rewrite sorted_desc_perm in Ha, Hb.
    unfold fused_order. rewrite !score_of_decorate, !doc_id_decorate.
    destruct Hab as [Hlt|[Heqs Hbefore]]; [by left|right].
    split; [done|].
    destruct (Hfacts a Ha) as (ta & ea & resta & -> & Hea & _).
    destruct (Hfacts b Hb) as (tb & eb & restb & -> & Heb & _).
    exists a.1, b.1. simpl. split_and!.
    + by apply bears_head in Hea.
    + by apply bears_head in Heb.
    + rewrite <- Hkeys. unfold od_keys. by apply before_fmap.
Qed.

Lemma rrf_single_list_and_ties_witness :
  (0 ≤ 60)%Z
  ∧ ∃ out, reciprocal_rank_fusion scenario_lists 60 "file_path" "score" true = Ok out
           ∧ StronglySorted (fused_order scenario_lists) out.
Proof.
  split; [lia|].
  apply (proj2 rrf_single_list_and_ties scenario_lists 60%Z true). lia.
Defined.

(** C6. On docs whose score is a number, [position_aware_blend] returns a
    list of the length of its input. The doc at position [i] before the
    blend gets the score 0.75 rrf + 0.25 rerank when [i < 3], 0.60 rrf +
    0.40 rerank when [3 <= i < 10] and 0.40 rrf + 0.60 rerank from 10 on,
    where a missing rerank score counts as 0; its record keeps the doc and
    holds both scores under [rrf_score] and [rerank_score]. The output is
    these records sorted by blended score descending. *)
Theorem blend_scores_and_order (rrf_results : list Dict)
    (rerank_scores : gmap (option string) Q) :
  Forall (λ d, numeric (default (VInt 0) (d !! "score"))) rrf_results →
  ∃ blended out,
    position_aware_blend rrf_results rerank_scores "file_path" = Ok out
    ∧ length out = length rrf_results
    ∧ length blended = length rrf_results
    ∧ (∀ i doc, rrf_results !! i = Some doc →
         ∃ rrf rerank_value s,
           as_float (default (VInt 0) (doc !! "score")) = Ok rrf
           ∧ as_float rerank_value = Ok (rerank_of rerank_scores "file_path" doc)
           ∧ (s == blend_formula i rrf (rerank_of rerank_scores "file_path" doc))%Q
           ∧ blended !! i
             = Some (<[ "score" := VFloat s ]>
                       (<[ "rerank_score" := rerank_value ]>
                          (<[ "rrf_score" := default (VInt 0) (doc !! "score") ]>
                             doc))))
    ∧ out ≡ₚ blended
    ∧ StronglySorted (desc_by score_of) out.
Proof.
  intros Hall.
  destruct (blend_loop_spec rerank_scores "file_path" rrf_results 0 Hall)
    as (blended & Hloop & Hlen & Hat).
  exists blended, (sorted_desc score_of blended).
  unfold position_aware_blend. rewrite Hloop. simpl.
  split_and!; [done|by rewrite sorted_desc_length|done| |
               apply sorted_desc_perm|apply sorted_desc_sorted].
  intros i doc Hdoc. destruct (Hat i doc Hdoc) as [Hrec [rec Hsome]].
  rewrite Forall_forall in Hall.
  destruct (blend_record_spec rerank_scores "file_path" i doc)
    as (rrf & rv & s & Hrrf & Hrv & Hs & Hrec');
    [apply Hall; by eapply list_elem_of_lookup_2|].
  exists rrf, rv, s. split_and!; [done|done|done|].
  simpl in Hrec. rewrite Hrec' in Hrec. rewrite Hsome in *. simpl in Hrec.
  by injection Hrec as <-.
Qed.

Lemma blend_scores_and_order_witness :
  Forall (λ d, numeric (default (VInt 0) (d !! "score"))) [doc_of "a"; doc_of "b"]
  ∧ ∃ out, position_aware_blend [doc_of "a"; doc_of "b"] ∅ "file_path" = Ok out
           ∧ length out = 2%nat.
Proof.
  assert (H : Forall (λ d, numeric (default (VInt 0) (d !! "score")))
                [doc_of "a"; doc_of "b"])
    by (repeat constructor).
  split; [exact H|].
  destruct (blend_scores_and_order [doc_of "a"; doc_of "b"] ∅ H)
    as (blended & out & Hout & Hlen & _).
  exists out. split; [exact Hout | exact Hlen].
Defined.

(** C8, as stated, fails at the boundary: the guard is [len < 50], so a
    document of exactly 50 characters is not skipped. *)
Lemma fifty_characters_are_indexed :
  ¬ (∀ env settings path table st content,
       read_text env path = Some content →
       String.length (Text.strip content) = 50%nat →
       ∃ st', Indexer.index_file env settings path table st = (Ok 0%nat, st')
              ∧ st_db st' = st_db st).
Proof.
  intros H.
  destruct (H (demo_env text50 embed_up generate_down) demo_settings demo_path
              "work" fresh_state text50) as (st' & Hrun & _); [done|done|].
  apply (f_equal fst) in Hrun. vm_compute in Hrun. discriminate.
Qed.

(** C8, amended. [index_file] skips any file whose stripped content is
    shorter than 50 characters: it returns 0 and leaves the state as it
    was, so such a file produces zero chunks. At the boundary, a document
    of exactly 49 characters is skipped while a document of 50 characters
    is indexed. *)
Theorem short_files_are_skipped :
  (∀ env settings path table st content,
     read_text env path = Some content →
     (String.length (Text.strip content) < 50)%nat →
     Indexer.index_file env settings path table st = (Ok 0%nat, st))
  ∧ (String.length (Text.strip text49) = 49%nat
     ∧ Indexer.index_file (demo_env text49 embed_up generate_down) demo_settings
         demo_path "work" fresh_state = (Ok 0%nat, fresh_state))
  ∧ (String.length (Text.strip text50) = 50%nat
     ∧ let r := Indexer.index_file (demo_env text50 embed_up generate_down)
                  demo_settings demo_path "work" fresh_state in
       r.1 = Ok 1%nat
       ∧ (map (λ c, (file_path c, chunk_index c, content c)) <$> st_db r.2 !! "work")
         = Some [(demo_path, 0%Z, text50)]).
Proof.
  split_and!.
  - intros env settings path table st content Hread Hshort.
    unfold Indexer.index_file. destruct (Indexer.is_excluded _ _); [done|].
    unfold Indexer.read_file. rewrite Hread. run_M.
    apply Nat.ltb_lt in Hshort. by rewrite Hshort.
  - by vm_compute.
  - by vm_compute.
  - by vm_compute.
  - by vm_compute.
Qed.

Lemma short_files_are_skipped_witness :
  read_text (demo_env text49 embed_up generate_down) demo_path = Some text49
  ∧ (String.length (Text.strip text49) < 50)%nat
  ∧ Indexer.index_file (demo_env text49 embed_up generate_down) demo_settings
      demo_path "work" fresh_state = (Ok 0%nat, fresh_state).
Proof.
  assert (H1 : read_text (demo_env text49 embed_up generate_down) demo_path
               = Some text49) by reflexivity.
  assert (H2 : (String.length (Text.strip text49) < 50)%nat) by (vm_compute; lia).
  split_and!; [exact H1|exact H2|].
  exact (proj1 short_files_are_skipped _ demo_settings demo_path "work"
           fresh_state text49 H1 H2).
Defined.

(** C10. If the embedding backend fails on every request and nothing is
    cached, [index_file] writes to neither store: the rows of the vector
    store and the FTS store are as before; and whenever the file is parsed
    and the table exists, the call returns 0. *)
Theorem total_embedding_failure_writes_nothing env settings path table st :
  (∀ n text, ollama_embed env n text = None) →
  (∀ text, st_cache st !! md5_hex env text = None) →
  ∃ r st',
    Indexer.index_file env settings path table st = (r, st')
    ∧ st_db st' = st_db st ∧ st_fts st' = st_fts st
    ∧ (is_Some (st_db st !! table) →
       (∀ content, read_text env path = Some content →
          ∃ mb, Indexer.extract_metadata env settings path content = Ok mb) →
       r = Ok 0%nat).
Proof.
  intros Hdown Hcache. unfold Indexer.index_file.
  destruct (Indexer.is_excluded _ _); [by eexists _, _|].
  unfold Indexer.read_file. destruct (read_text env path) as [content|] eqn:Hread;
    run_M; [|by eexists _, _].
  destruct (_ <? 50)%nat; [by eexists _, _|].
  destruct (Indexer.extract_metadata env settings path content) as [[md body]|e] eqn:Hmd;
    cbn -[Indexer.embed_loop].
  - destruct (Indexer.chunk_document env settings body md) as [|c cs] eqn:Hchunks;
      [by eexists _, _|].
    unfold open_table.
    destruct (st_db st !! table) as [rows|] eqn:Htable; cbn -[Indexer.embed_loop].
    + destruct (Indexer.embed_loop env (c :: cs) [] st) as [r1 st1] eqn:Hloop.
      pose proof (embed_loop_stores env _ _ _ _ _ Hloop) as (_ & Hdb & Hfts).
      destruct (embed_loop_all_fail env _ _ _ _ Hdown Hcache Hloop) as [-> | ->];
        simpl; eexists _, _; (split; [reflexivity|]); split_and!; done.
    + eexists _, _. split_and!; [done|done|done|]. by intros [? ?].
  - eexists _, _. split_and!; [done|done|done|].
    intros _ Hparse. destruct (Hparse content eq_refl) as [mb Hmb]. congruence.
Qed.

Lemma total_embedding_failure_writes_nothing_witness :
  (∀ n text, ollama_embed (demo_env text50 embed_down generate_down) n text = None)
  ∧ (∀ text, st_cache indexed_state
             !! md5_hex (demo_env text50 embed_down generate_down) text = None)
  ∧ ∃ r st',
      Indexer.index_file (demo_env text50 embed_down generate_down) demo_settings
        demo_path "work" indexed_state = (r, st')
      ∧ st_db st' = st_db indexed_state ∧ st_fts st' = st_fts indexed_state.
Proof.
  assert (H1 : ∀ n text,
    ollama_embed (demo_env text50 embed_down generate_down) n text = None)
    by reflexivity.
  assert (H2 : ∀ text, st_cache indexed_state
    !! md5_hex (demo_env text50 embed_down generate_down) text = None)
    by (intros; apply lookup_empty).
  split_and!; [exact H1|exact H2|].
  destruct (total_embedding_failure_writes_nothing _ demo_settings demo_path
              "work" indexed_state H1 H2) as (r & st' & Hrun & Hdb & Hfts & _).
  exists r, st'. split_and!; assumption.
Defined.

(** C1 fails on the code. [index_file] deletes the rows whose [file_hash]
    is the hash of the new content; the rows written for the old content
    of the file carry the old hash and stay. Here [demo_path] was indexed
    with [text_old] and is indexed again with [text50]: the table then
    holds the old row and the new one. *)
Theorem reindex_keeps_old_rows :
  let r := Indexer.index_file (demo_env text50 embed_up generate_down)
             demo_settings demo_path "work" indexed_state in
  r.1 = Ok 1%nat
  ∧ (map (λ c, (file_path c, file_hash c)) <$> st_db r.2 !! "work")
    = Some [(demo_path, text_old); (demo_path, text50)].
Proof. by vm_compute. Qed.

(** C9, as stated, fails for the searcher: [Searcher.get_embedding] has no
    cache; a second call for the same text goes to the backend again. *)
Lemma searcher_embeds_again :
  ¬ (∀ env text st v st1,
       Searcher.get_embedding env text st = (Ok v, st1) →
       Searcher.get_embedding env text st1 = (Ok v, st1)).
Proof.
  intros H.
  specialize (H (demo_env text50 embed_up generate_down) text50 fresh_state
                _ _ eq_refl).
  apply (f_equal (λ p, st_embed_calls p.2)) in H. vm_compute in H. discriminate.
Qed.

(** C9, amended. The indexer's embedding operation keeps an in-process
    cache keyed by the md5 of the text: after a call that returned a
    vector, a repeated call for the same text returns the same vector and
    leaves the state, and with it the count of backend requests, as it
    is. The searcher's query embedding has no cache: every call sends one
    request to the backend. *)
Theorem indexer_embedding_is_cached :
  (∀ env text st v st1,
     Indexer.get_embedding env text st = (Ok v, st1) →
     Indexer.get_embedding env text st1 = (Ok v, st1))
  ∧ (∀ env text st,
       st_embed_calls (Searcher.get_embedding env text st).2
       = S (st_embed_calls st)).
Proof.
  split.
  - intros env text st v st1. unfold Indexer.get_embedding. run_M.
    destruct (st_cache st !! md5_hex env text) as [v0|] eqn:Hc.
    + intros [= <- <-]. by rewrite Hc.
    + unfold post_embed. destruct (ollama_embed env _ text); [|done].
      intros [= <- <-]. simpl. by rewrite lookup_insert_eq.
  - intros env text st. unfold Searcher.get_embedding, post_embed.
    by destruct (ollama_embed env _ text).
Qed.

Lemma indexer_embedding_is_cached_witness :
  ∃ v st1,
    Indexer.get_embedding (demo_env text50 embed_up generate_down) text50
      fresh_state = (Ok v, st1)
    ∧ Indexer.get_embedding (demo_env text50 embed_up generate_down) text50 st1
      = (Ok v, st1).
Proof.
  eexists _, _. split; [reflexivity|].
  apply (proj1 indexer_embedding_is_cached _ text50 fresh_state). reflexivity.
Defined.

(** C3, as stated, fails: [vector_search] calls [get_embedding] before its
    loop and outside the [try] of the loop, so a failed embedding request
    is not turned into an empty list. *)
Lemma embedding_failure_is_not_caught :
  ¬ (∀ env query vault category person limit st,
       (∀ n text, ollama_embed env n text = None) →
       ∃ st', Searcher.vector_search env query vault category person limit st
              = (Ok [], st')).
Proof.
  intros H.
  destruct (H (demo_env text50 embed_down generate_down) "migration" "all"
              None None 30%Z fresh_state) as (st' & Hrun); [done|].
  apply (f_equal fst) in Hrun. vm_compute in Hrun. discriminate.
Qed.

(** C3, amended. If the request to the embedding backend fails,
    [vector_search] raises the error of the request instead of returning a
    list, and [hybrid_search] on that query raises as well, so the results
    of the BM25 branch are not returned. Once the query is embedded,
    [vector_search] returns: a failing table search is logged and caught. *)
Theorem embedding_failure_propagates :
  (∀ env fts_search query vault category person limit st,
     ollama_embed env (st_embed_calls st) query = None →
     (∃ st', Searcher.vector_search env query vault category person limit st
             = (Raise HTTPError, st'))
     ∧ (∃ e st', Searcher.hybrid_search env fts_search query vault category
                   person limit st = (Raise e, st')))
  ∧ (∀ env query vault category person limit st embedding,
       ollama_embed env (st_embed_calls st) query = Some embedding →
       ∃ results st',
         Searcher.vector_search env query vault category person limit st
         = (Ok results, st')).
Proof.
  split.
  - intros env fts_search query vault category person limit st Hfail.
    assert (Hvec : ∀ category limit,
      ∃ st', Searcher.vector_search env query vault category person limit st
             = (Raise HTTPError, st')).
    { intros c l. unfold Searcher.vector_search, Searcher.get_embedding, post_embed.
      unfold mbind, M_bind. rewrite Hfail. by eexists. }
    split; [apply Hvec|].
    unfold Searcher.hybrid_search. unfold mbind at 1. unfold M_bind at 1.
    destruct (Searcher.bm25_search fts_search query vault person 30 st)
      as [[bm25_results|e] st1] eqn:Hbm25.
    + apply bm25_search_state in Hbm25 as ->.
      unfold mbind at 1. unfold M_bind at 1.
      destruct (Hvec category 30%Z) as (st' & ->). by eexists _, _.
    + by eexists _, _.
  - intros env query vault category person limit st embedding Hok.
    unfold Searcher.vector_search, Searcher.get_embedding, post_embed.
    unfold mbind at 1. unfold M_bind at 1. rewrite Hok.
    unfold mbind at 1. unfold M_bind at 1.
    match goal with
    | |- context [foldM ?f ?l ?acc ?s] =>
        destruct (search_tables_ok env embedding category person limit l acc s)
          as (results & st' & ->)
    end.
    by eexists _, _.
Qed.

Lemma embedding_failure_propagates_witness :
  ollama_embed (demo_env text50 embed_down generate_down)
    (st_embed_calls fresh_state) "migration" = None
  ∧ ∃ e st', Searcher.hybrid_search (demo_env text50 embed_down generate_down)
               fts_nothing "migration" "all" None None 10 fresh_state
             = (Raise e, st').
Proof.
  assert (H : ollama_embed (demo_env text50 embed_down generate_down)
                (st_embed_calls fresh_state) "migration" = None) by reflexivity.
  split; [exact H|].
  exact (proj2 (proj1 embedding_failure_propagates _ fts_nothing "migration"
                  "all" None None 10%Z fresh_state H)).
Defined.

(** C5. In [query_search], the fusion input is the list of the hybrid
    results of the queries, one per query with the original query first,
    after [weight_original]: with more than one query the list of the
    original query stands a second time at index 0, so that every rank of
    that list contributes twice to the fused score; with a single query the
    input is that one list. *)
Theorem original_query_counts_twice env fts_search query vault category person
    limit use_reranking use_query_expansion st queries st1 all_results st2 :
  Searcher.expand env query use_query_expansion st = (Ok queries, st1) →
  Searcher.search_all env fts_search queries vault category person st1
  = (Ok all_results, st2) →
  ∃ first rest st1',
    head queries = Some query
    ∧ Searcher.hybrid_search env fts_search query vault category person 30 st1
      = (Ok first, st1')
    ∧ all_results = first :: rest
    ∧ length all_results = length queries
    ∧ Searcher.query_search env fts_search query vault category person limit
        use_reranking use_query_expansion st
      = (fused ← lift (reciprocal_rank_fusion (Searcher.weight_original all_results)
                         60 "file_path" "score" true);
         Searcher.rerank_and_trim env query limit use_reranking fused) st2
    ∧ ((1 < length queries)%nat →
       Searcher.weight_original all_results = first :: first :: rest
       ∧ ∀ i k,
           (rrf_sum k (appearances "file_path" i (Searcher.weight_original all_results))
            == 2 * rrf_sum k (appearances "file_path" i [first])
               + rrf_sum k (appearances "file_path" i rest))%Q)
    ∧ (length queries = 1%nat → Searcher.weight_original all_results = [first]).
Proof.
  intros Hexpand Hsearch.
  assert (Hhead : ∃ alternatives, queries = query :: alternatives).
  { unfold Searcher.expand in Hexpand. destruct use_query_expansion.
    - destruct (expand_query_head env Searcher.reranker_model query st)
        as (alts & st' & Heq & _).
      rewrite Heq in Hexpand. injection Hexpand as <- <-. by eexists.
    - injection Hexpand as <- <-. by eexists. }
  destruct Hhead as [alternatives ->].
  destruct (search_all_shape env fts_search _ _ _ _ _ _ _ _ Hsearch)
    as (first & rest & st1' & Hfirst & -> & Hlen).
  exists first, rest, st1'. split_and!; [done|done|done|simpl; by rewrite Hlen| | |].
  - unfold Searcher.query_search. unfold mbind at 1. unfold M_bind at 1.
    rewrite Hexpand. unfold mbind at 1. unfold M_bind at 1.
    by rewrite Hsearch.
  - simpl. intros Hmany. unfold Searcher.weight_original. simpl.
    destruct rest as [|second rest]; [simpl in Hlen; lia|]. simpl.
    split; [done|]. intros i k.
    rewrite (appearances_cons _ _ first (first :: second :: rest)).
    rewrite (appearances_cons _ _ first (second :: rest)).
    rewrite !rrf_sum_app. ring.
  - simpl. intros Hone. unfold Searcher.weight_original. simpl.
    destruct rest as [|second rest]; [done|simpl in Hlen; lia].
Qed.

Lemma original_query_counts_twice_witness :
  ∃ queries st1 all_results st2 first rest,
    Searcher.expand (demo_env text50 embed_up generate_two) "migration" true
      fresh_state = (Ok queries, st1)
    ∧ Searcher.search_all (demo_env text50 embed_up generate_two) fts_nothing
        queries "all" None None st1 = (Ok all_results, st2)
    ∧ length queries = 3%nat
    ∧ all_results = first :: rest
    ∧ Searcher.weight_original all_results = first :: first :: rest.
Proof.
  assert (Hexp : Searcher.expand (demo_env text50 embed_up generate_two)
                   "migration" true fresh_state
                 = (Ok ["migration"; "cluster migration"; "index move"], fresh_state))
    by (vm_compute; reflexivity).
  destruct (Searcher.search_all (demo_env text50 embed_up generate_two)
              fts_nothing ["migration"; "cluster migration"; "index move"]
              "all" None None fresh_state) as [r2 st2] eqn:H2.
  assert (Hr2 : ∃ all_results, r2 = Ok all_results).
  { apply (f_equal fst) in H2. vm_compute in H2. subst r2. by eexists. }
  destruct Hr2 as [all_results ->].
  destruct (original_query_counts_twice _ fts_nothing "migration" "all" None None
              10%Z false true fresh_state _ _ _ _ Hexp H2)
    as (first & rest & st1' & _ & _ & Hall & _ & _ & Hmany & _).
  exists ["migration"; "cluster migration"; "index move"], fresh_state,
    all_results, st2, first, rest.
  split_and!; [exact Hexp|exact H2|reflexivity|exact Hall|].
  apply Hmany. simpl. lia.
Defined.



